(** * Logo extraction scripts: a shallow embedding and its properties

    The two scripts [extract-logo-advanced.py] and [extract-logo-with-text.py]
    are straight-line NumPy/SciPy/PIL programs.  Arrays are modelled as lists
    of rows, 8-bit channels as [Z], masks as lists of rows of [bool], array
    indices as [nat].  A run is modelled by what it leaves behind (files
    written, console lines) or by the exception that ends it.

    Floating point.  The scripts compute a few [float64] intermediates.  Every
    one of them is modelled by the exact value it stands for:
    - a sum of three squared channel differences is an integer below 2^53 and
      is exact; IEEE [sqrt] is correctly rounded, hence monotone and exact on
      perfect squares, so [sqrt(s) > t] for an integer [t >= 0] holds exactly
      when [t*t < s];
    - [np.mean] over three channels compared with an integer [c] is
      [r+g+b] compared with [3*c];
    - the crop fractions 0.60 and 0.75 are taken as the rationals 60/100 and
      75/100: the [float64] product with a row count below 2^20 truncates to
      the same integer as the exact product;
    - [a * clip(sqrt(d2)/2, 0, 1)] truncated to [uint8] is computed on the
      exact reals; for the only values below the clip, [d2 = 1] and
      [d2 = 2], the [float64] results 127.5 and 180.31... truncate alike.
    The lemmas [float_classifier_agrees], [float_crop_rows_agree] and
    [float_ramp_agrees] check these agreements by evaluating the binary64
    operations on the scripts' constants. *)

From Stdlib Require Import String DecimalString ZArith List Bool Lia QArith Qround.
From Stdlib Require Import Reals Lra.
From Stdlib Require Floats Uint63.
Import ListNotations.

#[local] Open Scope Z_scope.

(** ** Arrays *)

Record pixel := mkPixel { red : Z; green : Z; blue : Z; alpha_ch : Z }.

Definition image := list (list pixel).
Definition mask := list (list bool).

(** [arr[i][j]] for an index pair inside the array. *)
Definition lookup2 {A : Type} (arr : list (list A)) (i j : nat) : option A :=
  match nth_error arr i with
  | Some row => nth_error row j
  | None => None
  end.

(** ** Foreground classifier ([extract-logo-advanced.py], lines 11-20) *)

Definition white : Z * Z * Z := (255, 255, 255).

(** [np.sum((rgb - ref)**2, axis=2)] at one pixel. *)
Definition sum_sq_diff (ref : Z * Z * Z) (p : pixel) : Z :=
  let '(wr, wg, wb) := ref in
  (red p - wr) ^ 2 + (green p - wg) ^ 2 + (blue p - wb) ^ 2.

(** [np.sqrt(s) > t] for an integer [s >= 0] and an integer [t]. *)
Definition sqrt_gtb (s t : Z) : bool :=
  if t <? 0 then true else t * t <? s.

(** [mask = color_distance > threshold]. *)
Definition classify (ref : Z * Z * Z) (threshold : Z) (img : image) : mask :=
  map (map (fun p => sqrt_gtb (sum_sq_diff ref p) threshold)) img.

Definition threshold : Z := 50.

(** ** Indexed traversals *)

Fixpoint mapi_from {A B : Type} (f : nat -> A -> B) (k : nat) (l : list A) : list B :=
  match l with
  | [] => []
  | x :: l' => f k x :: mapi_from f (S k) l'
  end.

(** [f i j arr[i][j]] at every index pair, same shape as [arr]. *)
Definition mapij {A B : Type} (f : nat -> nat -> A -> B) (arr : list (list A))
  : list (list B) :=
  mapi_from (fun i row => mapi_from (fun j x => f i j x) 0%nat row) 0%nat arr.

(** Elementwise combination of two arrays of one shape. *)
Fixpoint zip_with {A B C : Type} (f : A -> B -> C) (l1 : list A) (l2 : list B)
  : list C :=
  match l1, l2 with
  | x :: l1', y :: l2' => f x y :: zip_with f l1' l2'
  | _, _ => []
  end.

Definition zip_with2 {A B C : Type} (f : A -> B -> C)
  (a1 : list (list A)) (a2 : list (list B)) : list (list C) :=
  zip_with (zip_with f) a1 a2.

(** [np.where(cond)]: the index pairs at which [cond] holds, row-major. *)
Definition where2 {A : Type} (cond : A -> bool) (arr : list (list A))
  : list (nat * nat) :=
  concat
    (mapi_from
       (fun i row =>
          concat (mapi_from (fun j x => if cond x then [(i, j)] else []) 0%nat row))
       0%nat arr).

(** [np.where(v)[0]] for a one-dimensional boolean array. *)
Definition where1 (v : list bool) : list nat :=
  concat (mapi_from (fun i (b : bool) => if b then [i] else []) 0%nat v).

(** [l[a:b]]. *)
Definition slice {A : Type} (a b : nat) (l : list A) : list A :=
  firstn (b - a) (skipn a l).

(** [arr[r0:r1, c0:c1]]; also PIL's [crop((c0, r0, c1, r1))] for a box inside
    the image. *)
Definition slice2 {A : Type} (r0 r1 c0 c1 : nat) (arr : list (list A))
  : list (list A) :=
  map (slice c0 c1) (slice r0 r1 arr).

(** [.min()] and [.max()] of a non-empty index array given as head and tail. *)
Definition min_of (x : nat) (l : list nat) : nat := fold_right Nat.min x l.
Definition max_of (x : nat) (l : list nat) : nat := fold_right Nat.max x l.

(** ** Mask refiner ([extract-logo-advanced.py], lines 24-26)

    [ndimage.binary_erosion] and [ndimage.binary_dilation] with the full 3x3
    structuring element [np.ones((3,3))], one iteration, origin 0 and SciPy's
    default [border_value=0]: cells outside the array read as false. *)

Definition getb (m : mask) (i j : Z) : bool :=
  if (i <? 0) || (j <? 0) then false
  else nth (Z.to_nat j) (nth (Z.to_nat i) m []) false.

Definition structure3 : list (Z * Z) :=
  [(-1, -1); (-1, 0); (-1, 1); (0, -1); (0, 0); (0, 1); (1, -1); (1, 0); (1, 1)].

Definition erode_at (f : Z -> Z -> bool) (i j : Z) : bool :=
  forallb (fun d => f (i + fst d) (j + snd d)) structure3.

Definition dilate_at (f : Z -> Z -> bool) (i j : Z) : bool :=
  existsb (fun d => f (i + fst d) (j + snd d)) structure3.

Definition binary_erosion (m : mask) : mask :=
  mapij (fun i j _ => erode_at (getb m) (Z.of_nat i) (Z.of_nat j)) m.

Definition binary_dilation (m : mask) : mask :=
  mapij (fun i j _ => dilate_at (getb m) (Z.of_nat i) (Z.of_nat j)) m.

(** SciPy: [binary_opening] is erosion then dilation, [binary_closing] is
    dilation then erosion, each with [border_value=0]. *)
Definition binary_opening (m : mask) : mask := binary_dilation (binary_erosion m).
Definition binary_closing (m : mask) : mask := binary_erosion (binary_dilation m).

Definition refine (m : mask) : mask := binary_closing (binary_opening m).

(** Pointwise readings used to state the refiner's properties: the order on
    cell predicates, the cells inside the array, and masks whose true cells
    all have their 3x3 neighbourhood inside the array (no true cell in the
    first or last row or column). *)
Definition le_fn (f g : Z -> Z -> bool) : Prop :=
  forall i j, f i j = true -> g i j = true.

Definition inb (m : mask) (i j : Z) : bool :=
  (0 <=? i) && (0 <=? j) &&
  (Z.to_nat i <? length m)%nat &&
  (Z.to_nat j <? length (nth (Z.to_nat i) m []))%nat.

Definition border_clear (m : mask) : bool :=
  forallb (fun q => erode_at (inb m) (Z.of_nat (fst q)) (Z.of_nat (snd q)))
          (where2 (fun b : bool => b) m).

Definition opening_at (f : Z -> Z -> bool) : Z -> Z -> bool :=
  dilate_at (erode_at f).

Definition closing_at (f : Z -> Z -> bool) : Z -> Z -> bool :=
  erode_at (dilate_at f).

(** ** Bounding box ([extract-logo-advanced.py], lines 29-32) *)

Inductive exn := IndexError.

(** [np.any(mask, axis=1)] and [np.any(mask, axis=0)]. *)
Definition any_axis1 (m : mask) : list bool := map (existsb (fun b => b)) m.

Definition any_axis0 (m : mask) : list bool :=
  map (fun j => existsb (fun row => nth j row false) m)
      (seq 0 (length (hd [] m))).

(** [idx[[0, -1]]]: first and last entry; indexing an empty array raises. *)
Definition first_last (idx : list nat) : exn + nat * nat :=
  match idx with
  | [] => inl IndexError
  | x :: rest => inr (x, last rest x)
  end.

Record bbox := mkBbox { ymin : nat; ymax : nat; xmin : nat; xmax : nat }.

Definition bounding_box (m : mask) : exn + bbox :=
  match first_last (where1 (any_axis1 m)) with
  | inl e => inl e
  | inr (y0, y1) =>
      match first_last (where1 (any_axis0 m)) with
      | inl e => inl e
      | inr (x0, x1) => inr (mkBbox y0 y1 x0 x1)
      end
  end.

(** ** Vertical region selector ([extract-logo-advanced.py], lines 39-40;
    [extract-logo-with-text.py], line 26) *)

(** Python's [int()] on a float: truncation toward zero. *)
Definition int_of_Q (q : Q) : Z := Z.quot (Qnum q) (Zpos (Qden q)).

(** [int(ymin + (ymax - ymin) * f)]. *)
Definition crop_row (y0 y1 : Z) (f : Q) : Z :=
  int_of_Q (inject_Z y0 + inject_Z (y1 - y0) * f)%Q.

Definition graphic_only_y (y0 y1 : Z) : Z := crop_row y0 y1 (60 # 100).
Definition graphic_text_y (y0 y1 : Z) : Z := crop_row y0 y1 (75 # 100).

(** [int(max_y * 0.75)] of the second script. *)
Definition graphic_text_max_y (max_y : Z) : Z :=
  int_of_Q (inject_Z max_y * (75 # 100))%Q.

(** The cutoff as the specification words it: [minRow + round(fraction *
    (maxRow - minRow))], clamped to [maxRow], with rounding to nearest. *)
Definition round_nearest (q : Q) : Z := Qfloor (q + (1 # 2))%Q.

Definition spec_cutoff (minRow maxRow : Z) (f : Q) : Z :=
  Z.min maxRow (minRow + round_nearest (f * inject_Z (maxRow - minRow))%Q).

(** ** Alpha compositor ([extract-logo-advanced.py], lines 52-61) *)

(** [(cropped_mask * 255).astype(np.uint8)]: the hard-edge alpha. *)
Definition mask_times_255 (m : mask) : list (list Z) :=
  map (map (fun b : bool => if b then 255 else 0)) m.

(** Squared Euclidean distance between cell [(i, j)] and cell [q]. *)
Definition sq_dist (i j : nat) (q : nat * nat) : Z :=
  (Z.of_nat i - Z.of_nat (fst q)) ^ 2 + (Z.of_nat j - Z.of_nat (snd q)) ^ 2.

(** The square of [ndimage.distance_transform_edt] at one cell, [bg] being the
    false cells of the array.  SciPy's transform is exact, so with background
    present the value is the least squared distance to a false cell.  With no
    false cell at all SciPy leaves its feature index at (-1, 0) for every
    cell and reports the distance to that position. *)
Definition edt_sq_at (bg : list (nat * nat)) (i j : nat) : Z :=
  match bg with
  | [] => (Z.of_nat i + 1) ^ 2 + Z.of_nat j ^ 2
  | q :: bg' =>
      fold_right (fun q' acc => Z.min (sq_dist i j q') acc) (sq_dist i j q) bg'
  end.

Definition distance_transform_edt_sq (m : mask) : list (list Z) :=
  let bg := where2 negb m in
  mapij (fun i j _ => edt_sq_at bg i j) m.

(** [(a * np.clip(dist / D, 0, 1)).astype(np.uint8)] with [dist = sqrt(d2)]:
    at or above the clip the factor is 1; below it the product is
    [sqrt(a*a*d2) / D], truncated. *)
Definition scale_by_ramp (D a d2 : Z) : Z :=
  if D * D <=? d2 then a else Z.sqrt (a * a * d2) / D.

(** The falloff width of line 57, [distance_from_edge / 2.0]. *)
Definition falloff : Z := 2.

Definition soft_alpha (D : Z) (m : mask) : list (list Z) :=
  zip_with2 (scale_by_ramp D) (mask_times_255 m) (distance_transform_edt_sq m).

(** [cropped_img[:, :, 3] = alpha]. *)
Definition with_alpha (p : pixel) (a : Z) : pixel :=
  mkPixel (red p) (green p) (blue p) a.

Definition set_alpha (img : image) (alpha : list (list Z)) : image :=
  zip_with2 with_alpha img alpha.

Definition composite_hard (img : image) (m : mask) : image :=
  set_alpha img (mask_times_255 m).

Definition composite_soft (D : Z) (img : image) (m : mask) : image :=
  set_alpha img (soft_alpha D m).

(** The soft alpha as the specification words it: [255 * mask * clamp(dist /
    D, 0, 1)] rounded to the nearest integer, for a cell at squared distance
    [d2] from the nearest false cell. *)
Definition spec_soft_alpha (D : Z) (b : bool) (d2 : Z) : Z :=
  if b then
    if D * D <=? d2 then 255
    else (Z.sqrt (4 * 255 * 255 * d2) + D) / (2 * D)
  else 0.

(** ** Alpha of the second script ([extract-logo-with-text.py], lines 35-43) *)

Definition light_pixel (p : pixel) : bool :=
  (150 <? red p) && (150 <? green p) && (150 <? blue p).

(** [np.mean(rgb) > 180]. *)
Definition grayish (p : pixel) : bool := 3 * 180 <? red p + green p + blue p.

Definition matte_alpha (cropped_array : image) : list (list Z) :=
  map (map (fun p => if grayish p then 0 else if light_pixel p then 0 else 255))
      cropped_array.

(** ** Trim step (lines 66-78 and 51-63) *)

Definition trim (result : image) : image :=
  match where2 (fun p => 0 <? alpha_ch p) result with
  | [] => result
  | (r, c) :: rest =>
      let rs := map fst rest in
      let cs := map snd rest in
      let trim_top := min_of r rs in
      let trim_bottom := (max_of r rs + 1)%nat in
      let trim_left := min_of c cs in
      let trim_right := (max_of c cs + 1)%nat in
      slice2 trim_top trim_bottom trim_left trim_right result
  end.

(** The four extremes of a non-empty index set: each is attained, and each
    bounds every member. *)
Record extremes (P : list (nat * nat)) (top bot left right : nat) : Prop :=
  { top_in : exists c, In (top, c) P;
    bot_in : exists c, In (bot, c) P;
    left_in : exists r, In (r, left) P;
    right_in : exists r, In (r, right) P;
    all_in : forall r c, In (r, c) P ->
                         (top <= r <= bot /\ left <= c <= right)%nat }.

(** ** The two scripts *)

(** What a run leaves behind: the image files written and the console
    lines. *)
Record run := mkRun { saved : list (string * image); printed : list string }.

(** An integer inside an f-string. *)
Definition str (n : nat) : string := NilZero.string_of_uint (Nat.to_uint n).

(** [img.width] and [img.height]. *)
Definition width (img : image) : nat := length (hd [] img).
Definition height (img : image) : nat := length img.

Module Advanced.

Definition content_mask (img_array : image) : mask :=
  refine (classify white threshold img_array).

(** One pass of the loop body, lines 47-78: the image saved. *)
Definition variant (D : Z) (img_array : image) (m : mask) (bb : bbox)
  (crop_y : nat) : image :=
  let cropped_img :=
    slice2 (ymin bb) (crop_y + 1) (xmin bb) (xmax bb + 1) img_array in
  let cropped_mask :=
    slice2 (ymin bb) (crop_y + 1) (xmin bb) (xmax bb + 1) m in
  trim (composite_soft D cropped_img cropped_mask).

(** The whole script: what it leaves behind, or the exception that ends it
    (nothing is written or printed before line 31). *)
Definition main (img_array : image) : exn + run :=
  let m := content_mask img_array in
  match bounding_box m with
  | inl e => inl e
  | inr bb =>
      let y0 := Z.of_nat (ymin bb) in
      let y1 := Z.of_nat (ymax bb) in
      let outputs :=
        map (fun v : string * Z * string =>
               let '(crop_name, crop_y, output_name) := v in
               (crop_name, output_name,
                variant falloff img_array m bb (Z.to_nat crop_y)))
            [("Graphic only", graphic_only_y y0 y1, "logo_graphic_v2.png");
             ("Graphic + Text", graphic_text_y y0 y1, "logo_with_text_v2.png")]%string
      in
      inr (mkRun
             (map (fun o : string * string * image =>
                     let '(_, output_name, final_img) := o in
                     (output_name, final_img))
                  outputs)
             (("Content bounds: x(" ++ str (xmin bb) ++ "-" ++ str (xmax bb)
               ++ "), y(" ++ str (ymin bb) ++ "-" ++ str (ymax bb) ++ ")")
              :: map (fun o : string * string * image =>
                        let '(crop_name, output_name, final_img) := o in
                        crop_name ++ ": " ++ str (width final_img) ++ "x"
                        ++ str (height final_img) ++ " -> " ++ output_name)
                     outputs
              ++ [String (Ascii.ascii_of_nat 10) "Done! Created logo_graphic_v2.png and logo_with_text_v2.png";
                  "These use edge detection and gradient smoothing for cleaner edges."])%string)
  end.

(** The first image saved by a run, if any. *)
Definition first_saved (r : exn + run) : option image :=
  match r with
  | inr (mkRun ((_, out) :: _) _) => Some out
  | _ => None
  end.

End Advanced.

Module WithText.

(** [np.mean(rgb) < 250]. *)
Definition non_white (p : pixel) : bool := red p + green p + blue p <? 3 * 250.

(** Pillow's exception. *)
Inductive error := ValueError.

(** The whole script: what it leaves behind, or the exception that ends it.
    Line 29 crops the rows from [min_y] up to, not including,
    [graphic_text_max_y].  When [graphic_text_max_y < min_y] Pillow rejects
    the inverted box at line 29 with [ValueError]; when the two are equal the
    crop has no rows and saving it at line 66 raises [ValueError].  Either
    way nothing has been saved, and nothing printed: the [print] calls follow
    the save.  Otherwise the box is inside the image and the crop is the
    slice. *)
Definition main (img_array : image) : error + run :=
  match where2 non_white img_array with
  | [] => inr (mkRun [] ["No content found in image"%string])
  | (r, c) :: rest =>
      let min_y := min_of r (map fst rest) in
      let max_y := max_of r (map fst rest) in
      let min_x := min_of c (map snd rest) in
      let max_x := max_of c (map snd rest) in
      let text_max_y := Z.to_nat (graphic_text_max_y (Z.of_nat max_y)) in
      if (text_max_y <=? min_y)%nat then inl ValueError
      else
        let cropped_array :=
          slice2 min_y text_max_y min_x (max_x + 1) img_array in
        let result := set_alpha cropped_array (matte_alpha cropped_array) in
        let final_img := trim result in
        inr (mkRun [("logo_with_text.png"%string, final_img)]
               ["Logo with InterParents text extracted and saved!";
                "Original size: " ++ str (width img_array) ++ "x"
                ++ str (height img_array);
                "Graphic + text bounds: x(" ++ str min_x ++ "-" ++ str max_x
                ++ "), y(" ++ str min_y ++ "-" ++ str text_max_y ++ ")";
                "Final size: " ++ str (width final_img) ++ "x"
                ++ str (height final_img)]%string)
  end.

End WithText.

(** ** The [float64] computations as the scripts write them

    Used only to check, by evaluation, that the exact models above agree with
    binary64 arithmetic on the scripts' constants. *)

Definition float_of_Z (z : Z) : PrimFloat.float :=
  PrimFloat.of_uint63 (Uint63.of_Z z).

(** [np.sqrt(s) > t]. *)
Definition float_sqrt_gt (s t : Z) : bool :=
  PrimFloat.ltb (float_of_Z t) (PrimFloat.sqrt (float_of_Z s)).

(** [ymin + (ymax - ymin) * f]. *)
Definition float_crop_row (y0 y1 : Z) (f : PrimFloat.float) : PrimFloat.float :=
  PrimFloat.add (float_of_Z y0) (PrimFloat.mul (float_of_Z (y1 - y0)) f).

(** [np.clip(x, 0, 1)]. *)
Definition float_clip01 (x : PrimFloat.float) : PrimFloat.float :=
  if PrimFloat.ltb x (float_of_Z 0) then float_of_Z 0
  else if PrimFloat.ltb (float_of_Z 1) x then float_of_Z 1
  else x.

(** [alpha * np.clip(np.sqrt(d2) / 2.0, 0, 1)]. *)
Definition float_scaled_alpha (a d2 : Z) : PrimFloat.float :=
  PrimFloat.mul (float_of_Z a)
    (float_clip01 (PrimFloat.div (PrimFloat.sqrt (float_of_Z d2)) (float_of_Z 2))).

(** A non-negative float truncates to the integer [n]. *)
Definition float_truncates_to (x : PrimFloat.float) (n : Z) : bool :=
  PrimFloat.leb (float_of_Z n) x && PrimFloat.ltb x (float_of_Z (n + 1)).

(** The literals [0.60] and [0.75] as binary64 values: the correctly rounded
    quotient of two small integers is the double nearest to the decimal. *)
Definition float_0_60 : PrimFloat.float :=
  PrimFloat.div (float_of_Z 60) (float_of_Z 100).
Definition float_0_75 : PrimFloat.float :=
  PrimFloat.div (float_of_Z 75) (float_of_Z 100).

(** [p] holds of every integer in [0, n). *)
Definition all_below (n : Z) (p : Z -> bool) : bool :=
  fst (Z.iter n (fun st => (fst st && p (snd st), snd st + 1)) (true, 0)).

(** ** Shapes and colour planes *)

(** The row lengths of an array, its shape. *)
Definition shape {A : Type} (arr : list (list A)) : list nat := map (@length A) arr.

(** [img_array[:, :, :3]]. *)
Definition colors (img : image) : list (list (Z * Z * Z)) :=
  map (map (fun p => (red p, green p, blue p))) img.

(** [img_array[:, :, 3]]. *)
Definition alphas (img : image) : list (list Z) := map (map alpha_ch) img.

(** ** Sample inputs *)

(** A mask with no true cell. *)
Definition no_true (m : mask) : bool := forallb (forallb negb) m.

Definition black_px : pixel := mkPixel 0 0 0 255.
Definition white_px : pixel := mkPixel 255 255 255 255.

(** An [h] by [w] image, black where [f] holds and white elsewhere. *)
Definition paint (h w : nat) (f : nat -> nat -> bool) : image :=
  map (fun i => map (fun j => if f i j then black_px else white_px) (seq 0 w))
      (seq 0 h).

Definition between (a b x : nat) : bool := (a <=? x)%nat && (x <=? b)%nat.

(** Every pixel is pure white. *)
Definition all_white (img : image) : bool :=
  forallb (forallb (fun p => (red p =? 255) && (green p =? 255) && (blue p =? 255)))
          img.

Definition all_black_4x4 : image := paint 4 4 (fun _ _ => true).

Definition all_white_3x3 : image := paint 3 3 (fun _ _ => false).

(** A 4x4 black block inside a 6x6 white image. *)
Definition block_6x6 : image :=
  paint 6 6 (fun i j => between 1 4 i && between 1 4 j).

(** An L-shaped black region inside a 10x10 white image. *)
Definition l_shape_10x10 : image :=
  paint 10 10 (fun i j =>
                 (between 2 4 i && between 2 7 j) || (between 5 7 i && between 2 4 j)).

(** The scenario image: 100x100 white with a 20x20 black square at rows and
    columns 40-59. *)
Definition square_100x100 : image :=
  paint 100 100 (fun i j => between 40 59 i && between 40 59 j).

(** NumPy arrays are rectangular: every row is as long as the first. *)
Definition rectangular {A : Type} (arr : list (list A)) : bool :=
  forallb (fun row => (length row =? length (hd [] arr))%nat) arr.

(** * Properties *)

(** ** Real-number reading of the integer comparisons *)

Lemma sum_sq_diff_nonneg ref p : 0 <= sum_sq_diff ref p.
Proof.
  unfold sum_sq_diff. destruct ref as [[wr wg] wb]. nia.
Qed.

Lemma sqrt_gtb_real (s t : Z) :
  0 <= s -> 0 <= t ->
  sqrt_gtb s t = true <-> (sqrt (IZR s) > IZR t)%R.
Proof.
  intros Hs Ht. unfold sqrt_gtb.
  destruct (Z.ltb_spec t 0) as [Hneg | _]; [lia |].
  assert (Ht' : (0 <= IZR t)%R) by (apply IZR_le; lia).
  assert (Hs' : (0 <= IZR s)%R) by (apply IZR_le; lia).
  rewrite Z.ltb_lt. split.
  - intros Hlt. unfold Rgt.
    rewrite <- (sqrt_square (IZR t)) by assumption.
    apply sqrt_lt_1_alt. split.
    + apply Rmult_le_pos; assumption.
    + rewrite <- mult_IZR. apply IZR_lt. exact Hlt.
  - intros Hgt. apply lt_IZR. rewrite mult_IZR.
    rewrite <- (sqrt_sqrt (IZR s)) by assumption.
    unfold Rgt in Hgt.
    apply Rmult_le_0_lt_compat; assumption.
Qed.

Lemma lookup2_map {A B : Type} (f : A -> B) arr i j :
  lookup2 (map (map f) arr) i j = option_map f (lookup2 arr i j).
Proof.
  unfold lookup2. rewrite nth_error_map.
  destruct (nth_error arr i) as [row |]; simpl; [| reflexivity].
  rewrite nth_error_map. reflexivity.
Qed.

(** C1.  Distance-threshold classifier: at every pixel of the grid and for
    every threshold > 0, the mask is true exactly when the Euclidean distance
    of the pixel's colour from the reference colour is strictly greater than
    the threshold; a pixel equal to the reference colour is background. *)
Theorem classify_distance_threshold :
  forall (img : image) (wr wg wb : Z) (t : Z) (i j : nat) (p : pixel),
    0 < t ->
    lookup2 img i j = Some p ->
    exists b : bool,
      lookup2 (classify (wr, wg, wb) t img) i j = Some b /\
      (b = true <->
       (sqrt ((IZR (red p) - IZR wr) * (IZR (red p) - IZR wr)
              + (IZR (green p) - IZR wg) * (IZR (green p) - IZR wg)
              + (IZR (blue p) - IZR wb) * (IZR (blue p) - IZR wb))
        > IZR t)%R) /\
      (red p = wr -> green p = wg -> blue p = wb -> b = false).
Proof.
  intros img wr wg wb t i j p Ht Hp.
  exists (sqrt_gtb (sum_sq_diff (wr, wg, wb) p) t). split; [| split].
  - unfold classify. rewrite lookup2_map, Hp. reflexivity.
  - replace ((IZR (red p) - IZR wr) * (IZR (red p) - IZR wr)
             + (IZR (green p) - IZR wg) * (IZR (green p) - IZR wg)
             + (IZR (blue p) - IZR wb) * (IZR (blue p) - IZR wb))%R
      with (IZR (sum_sq_diff (wr, wg, wb) p)).
    + apply sqrt_gtb_real; [apply sum_sq_diff_nonneg | lia].
    + unfold sum_sq_diff.
      replace ((red p - wr) ^ 2 + (green p - wg) ^ 2 + (blue p - wb) ^ 2)
        with ((red p - wr) * (red p - wr) + (green p - wg) * (green p - wg)
              + (blue p - wb) * (blue p - wb)) by ring.
      rewrite !plus_IZR, !mult_IZR, !minus_IZR. reflexivity.
  - intros <- <- <-. unfold sum_sq_diff.
    replace ((red p - red p) ^ 2 + (green p - green p) ^ 2 + (blue p - blue p) ^ 2)
      with 0 by ring.
    unfold sqrt_gtb. destruct (Z.ltb_spec t 0); [lia |].
    apply Z.ltb_ge. nia.
Qed.

Lemma classify_distance_threshold_witness :
  exists b : bool,
    lookup2 (classify white threshold [[mkPixel 255 255 255 255; mkPixel 0 0 0 255]]) 0 1
      = Some b /\
    (b = true <->
     (sqrt ((IZR 0 - IZR 255) * (IZR 0 - IZR 255)
            + (IZR 0 - IZR 255) * (IZR 0 - IZR 255)
            + (IZR 0 - IZR 255) * (IZR 0 - IZR 255))
      > IZR threshold)%R) /\
    (0 = 255 -> 0 = 255 -> 0 = 255 -> b = false).
Proof.
  apply (classify_distance_threshold
           [[mkPixel 255 255 255 255; mkPixel 0 0 0 255]] 255 255 255 threshold 0 1
           (mkPixel 0 0 0 255)).
  - reflexivity.
  - reflexivity.
Defined.

(** ** Agreement of the exact models with binary64 arithmetic *)

(** For the script's threshold the comparison [np.sqrt(s) > 50] agrees with
    the integer test on every possible sum of squares, 0 to 3 * 255^2. *)
Lemma float_classifier_agrees :
  all_below (3 * 255 * 255 + 1)
            (fun s => Bool.eqb (float_sqrt_gt s threshold) (sqrt_gtb s threshold))
  = true.
Proof. vm_compute. reflexivity. Qed.

(** The three cutoffs agree with their binary64 computation for all first
    rows and row spans below 400. *)
Lemma float_crop_rows_agree :
  all_below 400 (fun y0 =>
    all_below 400 (fun d =>
      float_truncates_to (float_crop_row y0 (y0 + d) float_0_60)
                         (graphic_only_y y0 (y0 + d)) &&
      float_truncates_to (float_crop_row y0 (y0 + d) float_0_75)
                         (graphic_text_y y0 (y0 + d)) &&
      float_truncates_to (PrimFloat.mul (float_of_Z d) float_0_75)
                         (graphic_text_max_y d)))
  = true.
Proof. vm_compute. reflexivity. Qed.

(** The smoothed alpha agrees with its binary64 computation for the script's
    falloff width and every squared distance below 10000. *)
Lemma float_ramp_agrees :
  all_below 10000 (fun d2 =>
    float_truncates_to (float_scaled_alpha 255 d2) (scale_by_ramp falloff 255 d2) &&
    float_truncates_to (float_scaled_alpha 0 d2) (scale_by_ramp falloff 0 d2))
  = true.
Proof. vm_compute. reflexivity. Qed.

(** ** Vertical region selector *)

Lemma Qfloor_unique (q : Q) (n : Z) :
  (inject_Z n <= q)%Q -> (q < inject_Z (n + 1))%Q -> Qfloor q = n.
Proof.
  intros Hlo Hhi.
  pose proof (Qfloor_le q) as Hf1.
  pose proof (Qlt_floor q) as Hf2.
  assert (H1 : (inject_Z (Qfloor q) < inject_Z (n + 1))%Q)
    by (eapply Qle_lt_trans; eassumption).
  assert (H2 : (inject_Z n < inject_Z (Qfloor q + 1))%Q)
    by (eapply Qle_lt_trans; eassumption).
  rewrite <- Zlt_Qlt in H1, H2. lia.
Qed.

Lemma int_of_Q_nonneg (q : Q) : (0 <= q)%Q -> int_of_Q q = Qfloor q.
Proof.
  intros Hq. destruct q as [n d]. unfold int_of_Q, Qfloor. simpl.
  unfold Qle in Hq. simpl in Hq.
  apply Z.quot_div_nonneg; lia.
Qed.

Lemma Qfloor_shift (n : Z) (q : Q) :
  Qfloor (inject_Z n + q) = n + Qfloor q.
Proof.
  apply Qfloor_unique.
  - rewrite inject_Z_plus. apply (proj2 (Qplus_le_r _ _ _)). apply Qfloor_le.
  - replace (n + Qfloor q + 1) with (n + (Qfloor q + 1)) by ring.
    rewrite inject_Z_plus. apply (proj2 (Qplus_lt_r _ _ _)). apply Qlt_floor.
Qed.

Lemma crop_row_eq (y0 y1 : Z) (f : Q) :
  0 <= y0 <= y1 -> (0 <= f)%Q ->
  crop_row y0 y1 f = y0 + Qfloor (f * inject_Z (y1 - y0)).
Proof.
  intros Hy Hf. unfold crop_row.
  assert (Hd : (0 <= inject_Z (y1 - y0))%Q)
    by (change 0%Q with (inject_Z 0); rewrite <- Zle_Qle; lia).
  assert (Hp : (0 <= inject_Z (y1 - y0) * f)%Q)
    by (apply Qmult_le_0_compat; assumption).
  rewrite int_of_Q_nonneg.
  - rewrite Qfloor_shift. f_equal. apply Qfloor_comp. apply Qmult_comm.
  - assert (H0 : (0 <= inject_Z y0)%Q)
      by (change 0%Q with (inject_Z 0); rewrite <- Zle_Qle; lia).
    change 0%Q with (0 + 0)%Q. apply Qplus_le_compat; assumption.
Qed.

(** C3 (as amended).  For a bounding box with [0 <= minRow <= maxRow] and a
    fraction in (0,1], the cutoff of the first script is [minRow +
    floor(fraction * (maxRow - minRow))]: the product is truncated, not
    rounded to nearest.  It lies between [minRow] and [maxRow] without any
    clamp, equals [maxRow] for fraction 1, and equals [minRow] once
    [fraction * (maxRow - minRow) < 1]. *)
Theorem crop_row_truncates :
  forall (y0 y1 : Z) (f : Q),
    0 <= y0 <= y1 ->
    (0 < f)%Q /\ (f <= 1)%Q ->
    crop_row y0 y1 f = y0 + Qfloor (f * inject_Z (y1 - y0)) /\
    y0 <= crop_row y0 y1 f <= y1 /\
    ((f == 1)%Q -> crop_row y0 y1 f = y1) /\
    ((f * inject_Z (y1 - y0) < 1)%Q -> crop_row y0 y1 f = y0).
Proof.
  intros y0 y1 f Hy [Hf0 Hf1].
  assert (Hf : (0 <= f)%Q) by (apply Qlt_le_weak; exact Hf0).
  assert (Hd : (0 <= inject_Z (y1 - y0))%Q)
    by (change 0%Q with (inject_Z 0); rewrite <- Zle_Qle; lia).
  rewrite (crop_row_eq y0 y1 f Hy Hf).
  assert (Hlo : 0 <= Qfloor (f * inject_Z (y1 - y0))).
  { change 0 with (Qfloor (inject_Z 0)).
    apply Qfloor_resp_le. apply Qmult_le_0_compat; assumption. }
  assert (Hhi : Qfloor (f * inject_Z (y1 - y0)) <= y1 - y0).
  { rewrite <- (Qfloor_Z (y1 - y0)) at 2. apply Qfloor_resp_le.
    rewrite <- (Qmult_1_l (inject_Z (y1 - y0))) at 2.
    apply Qmult_le_compat_r; assumption. }
  split; [reflexivity |]. split; [lia |]. split.
  - intros H1.
    assert (He : (f * inject_Z (y1 - y0) == inject_Z (y1 - y0))%Q)
      by (rewrite H1; apply Qmult_1_l).
    rewrite (Qfloor_comp _ _ He), Qfloor_Z. ring.
  - intros Hlt.
    rewrite (Qfloor_unique (f * inject_Z (y1 - y0)) 0).
    + ring.
    + apply Qmult_le_0_compat; assumption.
    + exact Hlt.
Qed.

Lemma crop_row_truncates_witness :
  crop_row 40 59 (60 # 100) = 40 + Qfloor ((60 # 100) * inject_Z (59 - 40)) /\
  40 <= crop_row 40 59 (60 # 100) <= 59 /\
  (((60 # 100) == 1)%Q -> crop_row 40 59 (60 # 100) = 59) /\
  (((60 # 100) * inject_Z (59 - 40) < 1)%Q -> crop_row 40 59 (60 # 100) = 40).
Proof.
  apply (crop_row_truncates 40 59 (60 # 100)).
  - lia.
  - split; unfold Qlt, Qle; simpl; lia.
Defined.

(** The second script ignores [min_y]: its cutoff is [floor(3/4 * max_y)]. *)
Lemma graphic_text_max_y_eq (max_y : Z) :
  0 <= max_y -> graphic_text_max_y max_y = 3 * max_y / 4.
Proof.
  intros H. unfold graphic_text_max_y, int_of_Q. simpl.
  rewrite Z.quot_div_nonneg by lia.
  replace (max_y * 75) with (3 * max_y * 25) by ring.
  change 100 with (4 * 25).
  rewrite Z.div_mul_cancel_r by lia. reflexivity.
Qed.

(** C3, the claim as stated fails: the refined mask of [block_6x6] has the
    bounding box rows 1-4, the script cuts at row 2 ([int(1 + 3 * 0.60)]), the
    rounded formula gives row 3. *)
Lemma crop_row_not_rounded :
  bounding_box (Advanced.content_mask block_6x6) = inr (mkBbox 1 4 1 4) /\
  graphic_only_y 1 4 = 2 /\
  spec_cutoff 1 4 (60 # 100) = 3 /\
  graphic_only_y 1 4 <> spec_cutoff 1 4 (60 # 100).
Proof.
  repeat split; try (vm_compute; reflexivity).
  vm_compute. discriminate.
Qed.

(** ** Empty masks *)

Lemma concat_mapi_nil {A B : Type} (f : nat -> A -> list B) (l : list A) :
  forall k, (forall n x, In x l -> f n x = []) -> concat (mapi_from f k l) = [].
Proof.
  induction l as [| x l IH]; intros k H; simpl; [reflexivity |].
  rewrite (H k x (or_introl eq_refl)). simpl.
  apply IH. intros n y Hy. apply H. right. exact Hy.
Qed.

Lemma where1_nil (v : list bool) :
  forallb negb v = true -> where1 v = [].
Proof.
  intros H. unfold where1. apply concat_mapi_nil.
  intros n b Hb. rewrite forallb_forall in H.
  specialize (H b Hb). destruct b; [discriminate | reflexivity].
Qed.

Lemma where2_nil {A : Type} (cond : A -> bool) (arr : list (list A)) :
  forallb (forallb (fun x => negb (cond x))) arr = true -> where2 cond arr = [].
Proof.
  intros H. unfold where2. apply concat_mapi_nil.
  intros n row Hrow. apply concat_mapi_nil.
  intros k x Hx. rewrite forallb_forall in H.
  specialize (H row Hrow). rewrite forallb_forall in H.
  specialize (H x Hx). destruct (cond x); [discriminate | reflexivity].
Qed.

Lemma any_axis1_no_true (m : mask) :
  no_true m = true -> forallb negb (any_axis1 m) = true.
Proof.
  unfold no_true, any_axis1. intros H.
  rewrite forallb_forall in H. apply forallb_forall.
  intros b Hb. apply in_map_iff in Hb. destruct Hb as [row [Hb Hrow]].
  subst b. specialize (H row Hrow).
  apply negb_true_iff. apply not_true_is_false. intros Hex.
  apply existsb_exists in Hex. destruct Hex as [c [Hc Hct]]. subst c.
  rewrite forallb_forall in H. specialize (H true Hc). discriminate.
Qed.

(** ** Lookups through the traversals *)

Lemma nth_error_mapi_from {A B : Type} (f : nat -> A -> B) (l : list A) :
  forall k n, nth_error (mapi_from f k l) n = option_map (f (k + n)%nat) (nth_error l n).
Proof.
  induction l as [| x l IH]; intros k n; simpl.
  - destruct n; reflexivity.
  - destruct n as [| n]; simpl.
    + rewrite Nat.add_0_r. reflexivity.
    + rewrite IH. rewrite Nat.add_succ_r. reflexivity.
Qed.

Lemma length_mapi_from {A B : Type} (f : nat -> A -> B) (l : list A) :
  forall k, length (mapi_from f k l) = length l.
Proof.
  induction l as [| x l IH]; intros k; simpl; [reflexivity |].
  rewrite IH. reflexivity.
Qed.

Lemma lookup2_mapij {A B : Type} (f : nat -> nat -> A -> B) arr i j :
  lookup2 (mapij f arr) i j = option_map (f i j) (lookup2 arr i j).
Proof.
  unfold lookup2, mapij. rewrite nth_error_mapi_from. simpl.
  destruct (nth_error arr i) as [row |]; simpl; [| reflexivity].
  rewrite nth_error_mapi_from. reflexivity.
Qed.

Lemma shape_mapij {A B : Type} (f : nat -> nat -> A -> B) arr :
  shape (mapij f arr) = shape arr.
Proof.
  unfold shape, mapij.
  assert (H : forall k,
             map (@length B)
                 (mapi_from (fun i row => mapi_from (fun j x => f i j x) 0%nat row) k arr)
             = map (@length A) arr).
  { induction arr as [| row arr IH]; intros k; simpl; [reflexivity |].
    rewrite length_mapi_from, IH. reflexivity. }
  apply H.
Qed.

Lemma shape_map {A B : Type} (f : A -> B) arr :
  shape (map (map f) arr) = shape arr.
Proof.
  unfold shape. rewrite map_map. apply map_ext. intros row. apply length_map.
Qed.

Lemma nth_error_zip_with {A B C : Type} (f : A -> B -> C) (l1 : list A) :
  forall (l2 : list B) n,
    nth_error (zip_with f l1 l2) n =
    match nth_error l1 n, nth_error l2 n with
    | Some x, Some y => Some (f x y)
    | _, _ => None
    end.
Proof.
  induction l1 as [| x l1 IH]; intros l2 n; simpl.
  - destruct n; reflexivity.
  - destruct l2 as [| y l2]; simpl.
    + destruct n as [| n]; simpl; [reflexivity |].
      destruct (nth_error l1 n); reflexivity.
    + destruct n as [| n]; simpl; [reflexivity | apply IH].
Qed.

Lemma lookup2_zip_with2 {A B C : Type} (f : A -> B -> C) a1 a2 i j :
  lookup2 (zip_with2 f a1 a2) i j =
  match lookup2 a1 i j, lookup2 a2 i j with
  | Some x, Some y => Some (f x y)
  | _, _ => None
  end.
Proof.
  unfold lookup2, zip_with2. rewrite nth_error_zip_with.
  destruct (nth_error a1 i) as [r1 |]; [| reflexivity].
  destruct (nth_error a2 i) as [r2 |].
  - apply nth_error_zip_with.
  - destruct (nth_error r1 j); reflexivity.
Qed.

Lemma zip_with2_map_l {A B C D : Type} (f : A -> B -> C) (g : C -> D) (h : A -> D) :
  (forall x y, g (f x y) = h x) ->
  forall (a1 : list (list A)) (a2 : list (list B)),
    shape a1 = shape a2 -> map (map g) (zip_with2 f a1 a2) = map (map h) a1.
Proof.
  intros Hg. unfold zip_with2, shape.
  induction a1 as [| r1 a1 IH]; intros a2 Hs; simpl.
  - reflexivity.
  - destruct a2 as [| r2 a2]; [discriminate |]. simpl in *.
    injection Hs as Hr Hs. f_equal; [| apply IH; exact Hs].
    clear IH Hs. revert r2 Hr.
    induction r1 as [| x r1 IHr]; intros r2 Hr; simpl; [reflexivity |].
    destruct r2 as [| y r2]; [discriminate |]. simpl.
    rewrite Hg. f_equal. apply IHr. simpl in Hr. lia.
Qed.

Lemma zip_with2_map_r {A B C : Type} (f : A -> B -> C) (g : C -> B) :
  (forall x y, g (f x y) = y) ->
  forall (a1 : list (list A)) (a2 : list (list B)),
    shape a1 = shape a2 -> map (map g) (zip_with2 f a1 a2) = a2.
Proof.
  intros Hg. unfold zip_with2, shape.
  induction a1 as [| r1 a1 IH]; intros a2 Hs; simpl.
  - destruct a2; [reflexivity | discriminate].
  - destruct a2 as [| r2 a2]; [discriminate |]. simpl in *.
    injection Hs as Hr Hs. f_equal; [| apply IH; exact Hs].
    clear IH Hs. revert r2 Hr.
    induction r1 as [| x r1 IHr]; intros r2 Hr; simpl.
    + destruct r2; [reflexivity | discriminate].
    + destruct r2 as [| y r2]; [discriminate |]. simpl.
      rewrite Hg. f_equal. apply IHr. simpl in Hr. lia.
Qed.

Lemma shape_zip_with2 {A B C : Type} (f : A -> B -> C) a1 a2 :
  shape a1 = shape a2 -> shape (zip_with2 f a1 a2) = shape a1.
Proof.
  unfold zip_with2, shape. revert a2.
  induction a1 as [| r1 a1 IH]; intros a2 Hs; simpl; [reflexivity |].
  destruct a2 as [| r2 a2]; [discriminate |]. simpl in *.
  injection Hs as Hr Hs. f_equal; [| apply IH; exact Hs].
  clear IH Hs. revert r2 Hr.
  induction r1 as [| x r1 IHr]; intros r2 Hr; simpl; [reflexivity |].
  destruct r2 as [| y r2]; [discriminate |]. simpl.
  f_equal. apply IHr. simpl in Hr. lia.
Qed.

Lemma shape_soft_alpha D m : shape (soft_alpha D m) = shape m.
Proof.
  unfold soft_alpha.
  rewrite shape_zip_with2; unfold mask_times_255, distance_transform_edt_sq.
  - apply shape_map.
  - rewrite shape_map, shape_mapij. reflexivity.
Qed.

(** ** Frame condition *)

(** C8.  The compositor writes the alpha channel only: for a grid region and a
    mask of the same shape, the colour planes after soft-edge compositing (any
    falloff width) and after hard-edge compositing are the colour planes of
    the input, and the alpha plane is the computed alpha.  The same holds for
    the second script, which derives its alpha from the grid itself. *)
Theorem compositor_keeps_colors :
  forall (D : Z) (img : image) (m : mask),
    shape img = shape m ->
    colors (composite_soft D img m) = colors img /\
    alphas (composite_soft D img m) = soft_alpha D m /\
    colors (composite_hard img m) = colors img /\
    alphas (composite_hard img m) = mask_times_255 m /\
    colors (set_alpha img (matte_alpha img)) = colors img /\
    alphas (set_alpha img (matte_alpha img)) = matte_alpha img.
Proof.
  intros D img m Hs.
  assert (Hcol : forall al : list (list Z),
             shape img = shape al -> colors (set_alpha img al) = colors img).
  { intros al Hal. unfold colors, set_alpha.
    apply zip_with2_map_l; [reflexivity | exact Hal]. }
  assert (Halp : forall al : list (list Z),
             shape img = shape al -> alphas (set_alpha img al) = al).
  { intros al Hal. unfold alphas, set_alpha.
    apply zip_with2_map_r; [reflexivity | exact Hal]. }
  assert (Hsoft : shape img = shape (soft_alpha D m))
    by (rewrite shape_soft_alpha; exact Hs).
  assert (Hhard : shape img = shape (mask_times_255 m))
    by (unfold mask_times_255; rewrite shape_map; exact Hs).
  assert (Hmat : shape img = shape (matte_alpha img))
    by (unfold matte_alpha; rewrite shape_map; reflexivity).
  unfold composite_soft, composite_hard.
  repeat split; auto.
Qed.

Lemma compositor_keeps_colors_witness :
  colors (composite_soft 2 [[black_px; white_px]] [[true; false]])
  = colors [[black_px; white_px]] /\
  alphas (composite_soft 2 [[black_px; white_px]] [[true; false]])
  = soft_alpha 2 [[true; false]] /\
  colors (composite_hard [[black_px; white_px]] [[true; false]])
  = colors [[black_px; white_px]] /\
  alphas (composite_hard [[black_px; white_px]] [[true; false]])
  = mask_times_255 [[true; false]] /\
  colors (set_alpha [[black_px; white_px]] (matte_alpha [[black_px; white_px]]))
  = colors [[black_px; white_px]] /\
  alphas (set_alpha [[black_px; white_px]] (matte_alpha [[black_px; white_px]]))
  = matte_alpha [[black_px; white_px]].
Proof.
  apply (compositor_keeps_colors 2 [[black_px; white_px]] [[true; false]]).
  reflexivity.
Defined.

Lemma shape_slice2 {A B : Type} (r0 r1 c0 c1 : nat)
  (a1 : list (list A)) (a2 : list (list B)) :
  shape a1 = shape a2 ->
  shape (slice2 r0 r1 c0 c1 a1) = shape (slice2 r0 r1 c0 c1 a2).
Proof.
  intros Hs. unfold shape, slice2, slice in *.
  rewrite !map_map.
  assert (Hrow : forall X (l : list (list X)),
             map (fun row => length (firstn (c1 - c0) (skipn c0 row)))
                 (firstn (r1 - r0) (skipn r0 l))
             = map (fun n => Nat.min (c1 - c0) (n - c0))
                   (firstn (r1 - r0) (skipn r0 (map (@length X) l)))).
  { intros X l. rewrite skipn_map, firstn_map, map_map.
    apply map_ext. intros row. rewrite length_firstn, length_skipn. reflexivity. }
  rewrite (Hrow A a1), (Hrow B a2), Hs. reflexivity.
Qed.

(** In the first script the cropped grid and the cropped mask are the same
    slice of two arrays of one shape, so the frame condition applies to
    every pass of the loop. *)
Lemma variant_crops_same_shape (img_array : image) (r0 r1 c0 c1 : nat) :
  let cropped_img := slice2 r0 r1 c0 c1 img_array in
  let cropped_mask := slice2 r0 r1 c0 c1 (Advanced.content_mask img_array) in
  shape cropped_img = shape cropped_mask.
Proof.
  cbv zeta. apply shape_slice2.
  unfold Advanced.content_mask, refine, binary_closing, binary_opening,
    binary_erosion, binary_dilation, classify.
  rewrite !shape_mapij, shape_map. reflexivity.
Qed.

(** ** Trim step, degenerate case *)

(** C6.  When no pixel has alpha > 0 the trim step returns its input grid
    unchanged. *)
Theorem trim_fully_transparent :
  forall img : image,
    forallb (forallb (fun p => negb (0 <? alpha_ch p))) img = true ->
    trim img = img.
Proof.
  intros img H. unfold trim. rewrite (where2_nil _ _ H). reflexivity.
Qed.

Lemma trim_fully_transparent_witness :
  trim [[mkPixel 255 255 255 0; mkPixel 0 0 0 0]]
  = [[mkPixel 255 255 255 0; mkPixel 0 0 0 0]].
Proof.
  apply (trim_fully_transparent [[mkPixel 255 255 255 0; mkPixel 0 0 0 0]]).
  reflexivity.
Defined.

(** ** Soft-edge alpha *)

Lemma scale_by_ramp_bounds (D a d2 : Z) :
  0 < D -> 0 <= a -> 0 <= scale_by_ramp D a d2 <= a.
Proof.
  intros HD Ha. unfold scale_by_ramp.
  destruct (Z.leb_spec (D * D) d2) as [Hge | Hlt]; [lia |].
  split.
  - apply Z.div_pos; [apply Z.sqrt_nonneg | exact HD].
  - apply Z.div_le_upper_bound; [exact HD |].
    destruct (Z.le_gt_cases 0 (a * a * d2)) as [Hn | Hn].
    + assert (Hs : Z.sqrt (a * a * d2) < D * a + 1); [| lia].
      apply Z.sqrt_lt_square; nia.
    + rewrite Z.sqrt_neg by exact Hn. nia.
Qed.

Lemma lookup2_edt m i j :
  lookup2 (distance_transform_edt_sq m) i j
  = option_map (fun _ => edt_sq_at (where2 negb m) i j) (lookup2 m i j).
Proof.
  unfold distance_transform_edt_sq. apply lookup2_mapij.
Qed.

Lemma lookup2_soft_alpha D m i j :
  lookup2 (soft_alpha D m) i j
  = option_map
      (fun b : bool => scale_by_ramp D (255 * Z.b2z b) (edt_sq_at (where2 negb m) i j))
      (lookup2 m i j).
Proof.
  unfold soft_alpha, mask_times_255.
  rewrite lookup2_zip_with2, lookup2_map, lookup2_edt.
  destruct (lookup2 m i j) as [[|] |]; reflexivity.
Qed.

(** C10.  Soft-edge alpha never exceeds hard-edge alpha: for every falloff
    width D > 0 and every cell of the mask, the soft alpha lies between 0 and
    the hard alpha [255 * mask] of that cell; at a mask-false cell it is 0. *)
Theorem soft_alpha_le_hard_alpha :
  forall (D : Z) (m : mask) (i j : nat) (b : bool),
    0 < D ->
    lookup2 m i j = Some b ->
    exists a h : Z,
      lookup2 (soft_alpha D m) i j = Some a /\
      lookup2 (mask_times_255 m) i j = Some h /\
      h = 255 * Z.b2z b /\
      0 <= a <= h /\
      (b = false -> a = 0).
Proof.
  intros D m i j b HD Hb.
  exists (scale_by_ramp D (255 * Z.b2z b) (edt_sq_at (where2 negb m) i j)).
  exists (255 * Z.b2z b).
  split; [rewrite lookup2_soft_alpha, Hb; reflexivity |].
  split; [unfold mask_times_255; rewrite lookup2_map, Hb; destruct b; reflexivity |].
  split; [reflexivity |].
  assert (Hh : 0 <= 255 * Z.b2z b) by (destruct b; simpl; lia).
  pose proof (scale_by_ramp_bounds D _ (edt_sq_at (where2 negb m) i j) HD Hh) as Hbd.
  split; [exact Hbd |].
  intros ->. simpl in Hbd. simpl. lia.
Qed.

Lemma soft_alpha_le_hard_alpha_witness :
  exists a h : Z,
    lookup2 (soft_alpha 2 [[true; true; false]]) 0 1 = Some a /\
    lookup2 (mask_times_255 [[true; true; false]]) 0 1 = Some h /\
    h = 255 * Z.b2z true /\
    0 <= a <= h /\
    (true = false -> a = 0).
Proof.
  apply (soft_alpha_le_hard_alpha 2 [[true; true; false]] 0 1 true).
  - lia.
  - reflexivity.
Defined.

Lemma in_concat_mapi {A B : Type} (f : nat -> A -> list B) (y : B) (l : list A) :
  forall k,
    In y (concat (mapi_from f k l)) <->
    exists n x, nth_error l n = Some x /\ In y (f (k + n)%nat x).
Proof.
  induction l as [| x l IH]; intros k; simpl.
  - split; [intros [] |]. intros [n [x [Hn _]]]. destruct n; discriminate.
  - rewrite in_app_iff, IH. split.
    + intros [H | [n [z [Hn Hy]]]].
      * exists 0%nat, x. rewrite Nat.add_0_r. split; [reflexivity | exact H].
      * exists (S n), z. rewrite Nat.add_succ_r. split; assumption.
    + intros [[| n] [z [Hn Hy]]]; simpl in Hn.
      * injection Hn as <-. rewrite Nat.add_0_r in Hy. left. exact Hy.
      * right. exists n, z. rewrite Nat.add_succ_r in Hy. split; assumption.
Qed.

Lemma where2_In {A : Type} (cond : A -> bool) (arr : list (list A)) (i j : nat) :
  In (i, j) (where2 cond arr) <->
  exists x, lookup2 arr i j = Some x /\ cond x = true.
Proof.
  unfold where2, lookup2. rewrite in_concat_mapi. split.
  - intros [n [row [Hrow Hin]]]. simpl in Hin.
    apply in_concat_mapi in Hin. destruct Hin as [k [x [Hx Hin]]].
    simpl in Hin. destruct (cond x) eqn:Hc; [| destruct Hin].
    destruct Hin as [Heq | []]. injection Heq as <- <-.
    exists x. rewrite Hrow. split; assumption.
  - intros [x [Hx Hc]].
    destruct (nth_error arr i) as [row |] eqn:Hrow; [| discriminate].
    exists i, row. split; [exact Hrow |]. simpl.
    apply in_concat_mapi. exists j, x. split; [exact Hx |].
    simpl. rewrite Hc. left. reflexivity.
Qed.

Lemma edt_sq_at_least (bg : list (nat * nat)) (i j : nat) :
  bg <> [] ->
  (exists q, In q bg /\ sq_dist i j q = edt_sq_at bg i j) /\
  (forall q, In q bg -> edt_sq_at bg i j <= sq_dist i j q).
Proof.
  destruct bg as [| q0 bg]; [congruence |]. intros _. simpl.
  induction bg as [| q bg IH]; simpl.
  - split.
    + exists q0. split; [left; reflexivity | reflexivity].
    + intros q [<- | []]. lia.
  - destruct IH as [[qm [Hin Hqm]] Hmin].
    set (rest := fold_right (fun q' acc => Z.min (sq_dist i j q') acc)
                            (sq_dist i j q0) bg) in *.
    split.
    + destruct (Z.min_spec (sq_dist i j q) rest) as [[_ He] | [_ He]]; rewrite He.
      * exists q. split; [right; left; reflexivity | reflexivity].
      * exists qm. split; [| exact Hqm].
        destruct Hin as [<- | Hin]; [left; reflexivity | right; right; exact Hin].
    + intros q' [Hq' | [Hq' | Hq']].
      * specialize (Hmin q' (or_introl Hq')). lia.
      * subst q'. lia.
      * specialize (Hmin q' (or_intror Hq')). lia.
Qed.

Lemma sq_dist_nonneg i j q : 0 <= sq_dist i j q.
Proof. unfold sq_dist. nia. Qed.

Lemma Z_sqrt_real (n : Z) (x : R) :
  0 <= n -> (0 <= x)%R -> (x * x = IZR n)%R ->
  (IZR (Z.sqrt n) <= x < IZR (Z.sqrt n) + 1)%R.
Proof.
  intros Hn Hx Hxx.
  pose proof (Z.sqrt_spec n Hn) as [Hlo Hhi].
  pose proof (Z.sqrt_nonneg n) as Hs.
  apply IZR_le in Hlo, Hs. apply IZR_lt in Hhi.
  unfold Z.succ in Hhi. rewrite mult_IZR in Hlo, Hhi. rewrite plus_IZR in Hhi.
  rewrite <- Hxx in Hlo, Hhi.
  set (s := IZR (Z.sqrt n)) in *. simpl in Hhi.
  split.
  - destruct (Rle_lt_dec s x) as [H | H]; [exact H |]. exfalso. nra.
  - destruct (Rlt_le_dec x (s + 1)) as [H | H]; [exact H |]. exfalso. nra.
Qed.

(** [scale_by_ramp D 255 d2] is the real number [255 * clamp(sqrt(d2) / D, 0,
    1)] truncated to an integer. *)
Lemma scale_by_ramp_real (D d2 : Z) :
  0 < D -> 0 <= d2 ->
  (IZR (scale_by_ramp D 255 d2) <= 255 * Rmin 1 (sqrt (IZR d2) / IZR D)
   < IZR (scale_by_ramp D 255 d2) + 1)%R.
Proof.
  intros HD Hd2. unfold scale_by_ramp.
  assert (HDr : (0 < IZR D)%R) by (apply IZR_lt; exact HD).
  assert (Hdr : (0 <= IZR d2)%R) by (apply IZR_le; exact Hd2).
  assert (Hsq : (0 <= sqrt (IZR d2))%R) by apply sqrt_pos.
  assert (Hss : (sqrt (IZR d2) * sqrt (IZR d2) = IZR d2)%R)
    by (apply sqrt_sqrt; exact Hdr).
  set (r := sqrt (IZR d2)) in *.
  assert (Hdiv : (r / IZR D * IZR D = r)%R) by (field; lra).
  set (y := (r / IZR D)%R) in *.
  destruct (Z.leb_spec (D * D) d2) as [Hge | Hlt].
  - assert (H1 : (1 <= y)%R).
    { apply IZR_le in Hge. rewrite mult_IZR in Hge.
      destruct (Rle_lt_dec 1 y) as [H | H]; [exact H |]. exfalso.
      assert (Hr : (r < IZR D)%R) by (rewrite <- Hdiv; nra).
      assert (Hrr : (r * r < IZR D * IZR D)%R)
        by (apply Rmult_le_0_lt_compat; assumption).
      lra. }
    rewrite Rmin_left by exact H1. lra.
  - assert (H1 : (y <= 1)%R).
    { apply IZR_lt in Hlt. rewrite mult_IZR in Hlt.
      destruct (Rle_lt_dec y 1) as [H | H]; [exact H |]. exfalso.
      assert (Hr : (IZR D < r)%R) by (rewrite <- Hdiv; nra).
      assert (Hrr : (IZR D * IZR D < r * r)%R)
        by (apply Rmult_le_0_lt_compat; lra).
      lra. }
    rewrite Rmin_right by exact H1.
    assert (Hn : 0 <= 255 * 255 * d2) by lia.
    assert (Hx : (0 <= 255 * r)%R) by lra.
    assert (Hxx : (255 * r * (255 * r) = IZR (255 * 255 * d2))%R).
    { rewrite !mult_IZR. rewrite <- Hss. ring. }
    pose proof (Z_sqrt_real _ _ Hn Hx Hxx) as [Hlo Hhi].
    set (s := Z.sqrt (255 * 255 * d2)) in *.
    pose proof (Z.div_mod s D ltac:(lia)) as Hdm.
    pose proof (Z.mod_pos_bound s D HD) as Hmod.
    assert (Ha1 : s / D * D <= s) by lia.
    assert (Ha2 : s + 1 <= (s / D + 1) * D) by lia.
    apply IZR_le in Ha1, Ha2.
    rewrite mult_IZR in Ha1. rewrite mult_IZR, !plus_IZR in Ha2.
    set (a := IZR (s / D)) in *. simpl in Ha2.
    split.
    + destruct (Rle_lt_dec a (255 * y)) as [H | H]; [exact H |]. exfalso. nra.
    + destruct (Rlt_le_dec (255 * y) (a + 1)) as [H | H]; [exact H |]. exfalso. nra.
Qed.

Lemma scale_by_ramp_zero (D d2 : Z) : scale_by_ramp D 0 d2 = 0.
Proof.
  unfold scale_by_ramp. destruct (D * D <=? d2); [reflexivity |].
  simpl. apply Zdiv_0_l.
Qed.

(** C2 (as amended).  Soft-edge mode, for a cropped mask that holds a false
    cell and a falloff width D > 0: at every cell [(i, j)], with [d2] the
    least squared Euclidean distance [(i - gi)^2 + (j - gj)^2] to a false
    cell [(gi, gj)] of the cropped mask, the
    output alpha is [255 * mask * clamp(sqrt(d2) / D, 0, 1)] truncated toward
    zero (not rounded to nearest); it lies in [0, 255], and a true cell at
    distance at least D from every false cell gets exactly 255. *)
Theorem soft_alpha_truncated_ramp :
  forall (D : Z) (m : mask) (i j fi fj : nat) (b : bool),
    0 < D ->
    lookup2 m i j = Some b ->
    lookup2 m fi fj = Some false ->
    exists a d2 : Z,
      lookup2 (soft_alpha D m) i j = Some a /\
      (exists gi gj,
          lookup2 m gi gj = Some false /\
          (Z.of_nat i - Z.of_nat gi) * (Z.of_nat i - Z.of_nat gi)
          + (Z.of_nat j - Z.of_nat gj) * (Z.of_nat j - Z.of_nat gj) = d2) /\
      (forall gi gj,
          lookup2 m gi gj = Some false ->
          d2 <= (Z.of_nat i - Z.of_nat gi) * (Z.of_nat i - Z.of_nat gi)
                + (Z.of_nat j - Z.of_nat gj) * (Z.of_nat j - Z.of_nat gj)) /\
      (IZR a <= 255 * IZR (Z.b2z b) * Rmin 1 (sqrt (IZR d2) / IZR D) < IZR a + 1)%R /\
      0 <= a <= 255 /\
      (b = true -> D * D <= d2 -> a = 255).
Proof.
  intros D m i j fi fj b HD Hb Hf.
  assert (Hsq : forall gi gj,
             sq_dist i j (gi, gj)
             = (Z.of_nat i - Z.of_nat gi) * (Z.of_nat i - Z.of_nat gi)
               + (Z.of_nat j - Z.of_nat gj) * (Z.of_nat j - Z.of_nat gj))
    by (intros gi gj; unfold sq_dist; cbn [fst snd]; ring).
  set (bg := where2 negb m).
  assert (Hbg : bg <> []).
  { intros Hnil.
    assert (Hin : In (fi, fj) bg)
      by (apply where2_In; exists false; split; [exact Hf | reflexivity]).
    rewrite Hnil in Hin. destruct Hin. }
  destruct (edt_sq_at_least bg i j Hbg) as [[[qi qj] [Hq Hqd]] Hmin].
  exists (scale_by_ramp D (255 * Z.b2z b) (edt_sq_at bg i j)), (edt_sq_at bg i j).
  split; [rewrite lookup2_soft_alpha, Hb; reflexivity |].
  split.
  { exists qi, qj. split; [| rewrite <- Hsq; exact Hqd].
    apply where2_In in Hq. destruct Hq as [[|] [Hx Hc]]; [discriminate | exact Hx]. }
  split.
  { intros gi gj Hg. rewrite <- Hsq. apply Hmin.
    apply where2_In. exists false. split; [exact Hg | reflexivity]. }
  split.
  { destruct b; simpl Z.b2z.
    - rewrite Rmult_1_r. change (255 * 1) with 255.
      apply scale_by_ramp_real; [exact HD |].
      rewrite <- Hqd. apply sq_dist_nonneg.
    - change (255 * 0) with 0. rewrite scale_by_ramp_zero. lra. }
  split.
  { assert (Hh : 0 <= 255 * Z.b2z b <= 255) by (destruct b; simpl; lia).
    pose proof (scale_by_ramp_bounds D (255 * Z.b2z b) (edt_sq_at bg i j) HD
                  (proj1 Hh)). lia. }
  intros -> Hfar. unfold scale_by_ramp.
  destruct (Z.leb_spec (D * D) (edt_sq_at bg i j)); [reflexivity | lia].
Qed.

Lemma soft_alpha_truncated_ramp_witness :
  exists a d2 : Z,
    lookup2 (soft_alpha 2 [[true; true; false]]) 0 1 = Some a /\
    (exists gi gj,
        lookup2 [[true; true; false]] gi gj = Some false /\
        (Z.of_nat 0 - Z.of_nat gi) * (Z.of_nat 0 - Z.of_nat gi)
        + (Z.of_nat 1 - Z.of_nat gj) * (Z.of_nat 1 - Z.of_nat gj) = d2) /\
    (forall gi gj,
        lookup2 [[true; true; false]] gi gj = Some false ->
        d2 <= (Z.of_nat 0 - Z.of_nat gi) * (Z.of_nat 0 - Z.of_nat gi)
              + (Z.of_nat 1 - Z.of_nat gj) * (Z.of_nat 1 - Z.of_nat gj)) /\
    (IZR a <= 255 * IZR (Z.b2z true) * Rmin 1 (sqrt (IZR d2) / IZR 2) < IZR a + 1)%R /\
    0 <= a <= 255 /\
    (true = true -> 2 * 2 <= d2 -> a = 255).
Proof.
  apply (soft_alpha_truncated_ramp 2 [[true; true; false]] 0 1 0 2 true).
  - lia.
  - reflexivity.
  - reflexivity.
Defined.

(** C2, the claim as stated fails on the first script.  On [l_shape_10x10]
    the cropped mask (rows 2-5, columns 2-7 of the refined mask) has a true
    cell, row 2 column 3, whose nearest false cell is at distance 1; its
    alpha is 127 and is written so to the output image, where rounding 127.5
    to nearest gives 128.  On the scenario image the crop of the square holds
    no false cell, and the pixel in row 5, column 19 of the output, on the
    right edge of the square, keeps alpha 255. *)
Lemma soft_alpha_not_rounded :
  (let cropped_mask := slice2 2 6 2 8 (Advanced.content_mask l_shape_10x10) in
   bounding_box (Advanced.content_mask l_shape_10x10) = inr (mkBbox 2 7 2 7) /\
   graphic_only_y 2 7 = 5 /\
   lookup2 cropped_mask 2 3 = Some true /\
   lookup2 cropped_mask 3 3 = Some false /\
   lookup2 (distance_transform_edt_sq cropped_mask) 2 3 = Some 1 /\
   lookup2 (soft_alpha falloff cropped_mask) 2 3 = Some 127 /\
   spec_soft_alpha falloff true 1 = 128 /\
   lookup2 (soft_alpha falloff cropped_mask) 2 3
   <> Some (spec_soft_alpha falloff true 1)) /\
  (match Advanced.first_saved (Advanced.main l_shape_10x10) with
   | Some out => lookup2 out 2 3
   | None => None
   end = Some (mkPixel 0 0 0 127)) /\
  (exists a : Z,
      match Advanced.first_saved (Advanced.main square_100x100) with
      | Some out => lookup2 out 5 19
      | None => None
      end = Some (mkPixel 0 0 0 a) /\
      ~ (0 < a < 255)).
Proof.
  split; [| split].
  - cbv zeta. repeat split; try (vm_compute; reflexivity).
    vm_compute. discriminate.
  - vm_compute. reflexivity.
  - exists 255. split; [vm_compute; reflexivity | lia].
Qed.

(** ** Trim step, idempotence *)

Section TrimIdempotent.

#[local] Open Scope nat_scope.

Lemma lookup2_slice2 {A : Type} (r0 r1 c0 c1 : nat) (arr : list (list A)) i j :
  lookup2 (slice2 r0 r1 c0 c1 arr) i j
  = if (i <? r1 - r0) && (j <? c1 - c0)
    then lookup2 arr (r0 + i) (c0 + j)
    else None.
Proof.
  unfold lookup2, slice2, slice.
  rewrite nth_error_map, nth_error_firstn, nth_error_skipn.
  destruct (i <? r1 - r0); simpl; [| reflexivity].
  destruct (nth_error arr (r0 + i)) as [row |]; simpl.
  - rewrite nth_error_firstn, nth_error_skipn. reflexivity.
  - destruct (j <? c1 - c0); reflexivity.
Qed.

Lemma slice_slice {A : Type} (a n : nat) (l : list A) :
  slice 0 n (slice a (a + n) l) = slice a (a + n) l.
Proof.
  unfold slice. simpl. rewrite Nat.sub_0_r.
  replace (a + n - a) with n by lia.
  rewrite firstn_firstn, Nat.min_id. reflexivity.
Qed.

Lemma slice2_slice2 {A : Type} (r0 h c0 w : nat) (arr : list (list A)) :
  slice2 0 h 0 w (slice2 r0 (r0 + h) c0 (c0 + w) arr)
  = slice2 r0 (r0 + h) c0 (c0 + w) arr.
Proof.
  unfold slice2.
  set (rows := slice r0 (r0 + h) arr).
  assert (Hrows : slice 0 h (map (slice c0 (c0 + w)) rows)
                  = map (slice c0 (c0 + w)) rows).
  { unfold slice at 1. simpl. rewrite Nat.sub_0_r.
    apply firstn_all2. rewrite length_map. unfold rows, slice.
    replace (r0 + h - r0) with h by lia. apply firstn_le_length. }
  rewrite Hrows, map_map. apply map_ext. intros row. apply slice_slice.
Qed.

Lemma min_of_spec (x : nat) (l : list nat) :
  In (min_of x l) (x :: l) /\ forall y, In y (x :: l) -> min_of x l <= y.
Proof.
  unfold min_of. induction l as [| z l [IHin IHle]]; simpl.
  - split; [left; reflexivity |]. intros y [<- | []]. lia.
  - split.
    + destruct (Nat.min_spec z (fold_right Nat.min x l)) as [[_ He] | [_ He]];
        rewrite He.
      * right. left. reflexivity.
      * destruct IHin as [H | H]; [left; exact H | right; right; exact H].
    + intros y [Hy | [Hy | Hy]].
      * specialize (IHle y (or_introl Hy)). lia.
      * subst y. lia.
      * specialize (IHle y (or_intror Hy)). lia.
Qed.

Lemma max_of_spec (x : nat) (l : list nat) :
  In (max_of x l) (x :: l) /\ forall y, In y (x :: l) -> y <= max_of x l.
Proof.
  unfold max_of. induction l as [| z l [IHin IHle]]; simpl.
  - split; [left; reflexivity |]. intros y [<- | []]. lia.
  - split.
    + destruct (Nat.max_spec z (fold_right Nat.max x l)) as [[_ He] | [_ He]];
        rewrite He.
      * destruct IHin as [H | H]; [left; exact H | right; right; exact H].
      * right. left. reflexivity.
    + intros y [Hy | [Hy | Hy]].
      * specialize (IHle y (or_introl Hy)). lia.
      * subst y. lia.
      * specialize (IHle y (or_intror Hy)). lia.
Qed.

Lemma in_map_fst (P : list (nat * nat)) r :
  In r (map fst P) -> exists c, In (r, c) P.
Proof.
  intros H. apply in_map_iff in H. destruct H as [[r' c] [<- Hin]].
  exists c. exact Hin.
Qed.

Lemma in_map_snd (P : list (nat * nat)) c :
  In c (map snd P) -> exists r, In (r, c) P.
Proof.
  intros H. apply in_map_iff in H. destruct H as [[r c'] [<- Hin]].
  exists r. exact Hin.
Qed.

Lemma extremes_of (r c : nat) (rest : list (nat * nat)) :
  extremes ((r, c) :: rest)
           (min_of r (map fst rest)) (max_of r (map fst rest))
           (min_of c (map snd rest)) (max_of c (map snd rest)).
Proof.
  destruct (min_of_spec r (map fst rest)) as [Ht1 Ht2].
  destruct (max_of_spec r (map fst rest)) as [Hb1 Hb2].
  destruct (min_of_spec c (map snd rest)) as [Hl1 Hl2].
  destruct (max_of_spec c (map snd rest)) as [Hr1 Hr2].
  change (r :: map fst rest) with (map fst ((r, c) :: rest)) in *.
  change (c :: map snd rest) with (map snd ((r, c) :: rest)) in *.
  constructor.
  - apply in_map_fst. exact Ht1.
  - apply in_map_fst. exact Hb1.
  - apply in_map_snd. exact Hl1.
  - apply in_map_snd. exact Hr1.
  - intros r' c' Hin.
    assert (H1 : In r' (map fst ((r, c) :: rest)))
      by (apply in_map_iff; exists (r', c'); split; [reflexivity | exact Hin]).
    assert (H2 : In c' (map snd ((r, c) :: rest)))
      by (apply in_map_iff; exists (r', c'); split; [reflexivity | exact Hin]).
    specialize (Ht2 _ H1). specialize (Hb2 _ H1).
    specialize (Hl2 _ H2). specialize (Hr2 _ H2). lia.
Qed.

Lemma extremes_unique P t b l r t' b' l' r' :
  extremes P t b l r -> extremes P t' b' l' r' ->
  t = t' /\ b = b' /\ l = l' /\ r = r'.
Proof.
  intros [[c1 H1] [c2 H2] [r3 H3] [r4 H4] Hall]
         [[c1' H1'] [c2' H2'] [r3' H3'] [r4' H4'] Hall'].
  pose proof (Hall _ _ H1'). pose proof (Hall _ _ H2').
  pose proof (Hall _ _ H3'). pose proof (Hall _ _ H4').
  pose proof (Hall' _ _ H1). pose proof (Hall' _ _ H2).
  pose proof (Hall' _ _ H3). pose proof (Hall' _ _ H4).
  lia.
Qed.

Lemma where2_slice2_In {A : Type} (cond : A -> bool) r0 h c0 w arr i j :
  In (i, j) (where2 cond (slice2 r0 (r0 + h) c0 (c0 + w) arr)) <->
  i < h /\ j < w /\ In (r0 + i, c0 + j) (where2 cond arr).
Proof.
  rewrite !where2_In. rewrite lookup2_slice2.
  replace (r0 + h - r0) with h by lia. replace (c0 + w - c0) with w by lia.
  destruct (Nat.ltb_spec i h) as [Hi | Hi]; simpl.
  - destruct (Nat.ltb_spec j w) as [Hj | Hj].
    + split; [intros H; repeat split; assumption | intros [_ [_ H]]; exact H].
    + split; [intros [x [Hx _]]; discriminate | intros [_ [Hj' _]]; lia].
  - split; [intros [x [Hx _]]; discriminate | intros [Hi' _]; lia].
Qed.

Lemma extremes_slice2 {A : Type} (cond : A -> bool) arr t b l r :
  extremes (where2 cond arr) t b l r ->
  extremes (where2 cond (slice2 t (t + (b + 1 - t)) l (l + (r + 1 - l)) arr))
           0 (b - t) 0 (r - l).
Proof.
  intros [[c1 H1] [c2 H2] [r3 H3] [r4 H4] Hall].
  pose proof (Hall _ _ H1) as B1. pose proof (Hall _ _ H2) as B2.
  pose proof (Hall _ _ H3) as B3. pose proof (Hall _ _ H4) as B4.
  constructor.
  - exists (c1 - l). apply where2_slice2_In.
    repeat split; try lia.
    replace (t + 0) with t by lia. replace (l + (c1 - l)) with c1 by lia.
    exact H1.
  - exists (c2 - l). apply where2_slice2_In.
    repeat split; try lia.
    replace (t + (b - t)) with b by lia. replace (l + (c2 - l)) with c2 by lia.
    exact H2.
  - exists (r3 - t). apply where2_slice2_In.
    repeat split; try lia.
    replace (t + (r3 - t)) with r3 by lia. replace (l + 0) with l by lia.
    exact H3.
  - exists (r4 - t). apply where2_slice2_In.
    repeat split; try lia.
    replace (t + (r4 - t)) with r4 by lia. replace (l + (r - l)) with r by lia.
    exact H4.
  - intros i j Hin. apply where2_slice2_In in Hin.
    destruct Hin as [Hi [Hj _]]. lia.
Qed.

End TrimIdempotent.

(** C9.  The trim step is idempotent: trimming a trimmed grid gives the same
    grid, dimensions and pixel values alike. *)
Theorem trim_idempotent :
  forall img : image, trim (trim img) = trim img.
Proof.
  intros img.
  destruct (where2 (fun p => 0 <? alpha_ch p) img) as [| [r c] rest] eqn:HP.
  - assert (Hid : trim img = img) by (unfold trim; rewrite HP; reflexivity).
    rewrite Hid. exact Hid.
  - pose proof (extremes_of r c rest) as E. rewrite <- HP in E.
    set (t := min_of r (map fst rest)) in *.
    set (b := max_of r (map fst rest)) in *.
    set (l := min_of c (map snd rest)) in *.
    set (rt := max_of c (map snd rest)) in *.
    assert (Hord : (t <= b /\ l <= rt)%nat).
    { destruct E as [[c1 H1] _ _ _ Hall]. pose proof (Hall _ _ H1). lia. }
    assert (Htrim : trim img
                    = slice2 t (t + (b + 1 - t)) l (l + (rt + 1 - l)) img).
    { unfold trim. rewrite HP. fold t b l rt.
      replace (t + (b + 1 - t))%nat with (b + 1)%nat by lia.
      replace (l + (rt + 1 - l))%nat with (rt + 1)%nat by lia.
      reflexivity. }
    rewrite Htrim.
    pose proof (extremes_slice2 (fun p => 0 <? alpha_ch p) img t b l rt E) as E'.
    set (g := slice2 t (t + (b + 1 - t)) l (l + (rt + 1 - l)) img) in *.
    unfold trim at 1.
    destruct (where2 (fun p => 0 <? alpha_ch p) g) as [| [r' c'] rest'] eqn:HP'.
    + destruct E' as [[c1 H1] _ _ _ _]. destruct H1.
    + pose proof (extremes_of r' c' rest') as E2.
      destruct (extremes_unique _ _ _ _ _ _ _ _ _ E2 E') as [-> [-> [-> ->]]].
      replace (b - t + 1)%nat with (b + 1 - t)%nat by lia.
      replace (rt - l + 1)%nat with (rt + 1 - l)%nat by lia.
      unfold g. apply slice2_slice2.
Qed.

(** ** Mask refiner: erosion and dilation as an adjunction *)

Section Morphology.

Implicit Types f g : Z -> Z -> bool.

Lemma in_structure3 (a b : Z) :
  In (a, b) structure3 <-> -1 <= a <= 1 /\ -1 <= b <= 1.
Proof.
  unfold structure3. simpl. split.
  - intros H.
    repeat (destruct H as [H | H]; [injection H as <- <-; lia |]).
    destruct H.
  - intros [Ha Hb].
    assert (Ea : a = -1 \/ a = 0 \/ a = 1) by lia.
    assert (Eb : b = -1 \/ b = 0 \/ b = 1) by lia.
    destruct Ea as [-> | [-> | ->]]; destruct Eb as [-> | [-> | ->]]; tauto.
Qed.

Lemma erode_at_spec f i j :
  erode_at f i j = true <->
  forall a b, -1 <= a <= 1 -> -1 <= b <= 1 -> f (i + a) (j + b) = true.
Proof.
  unfold erode_at. rewrite forallb_forall. split; intros H.
  - intros a b Ha Hb. apply (H (a, b)). apply in_structure3. lia.
  - intros [a b] Hin. apply in_structure3 in Hin. simpl. apply H; lia.
Qed.

Lemma dilate_at_spec f i j :
  dilate_at f i j = true <->
  exists a b, -1 <= a <= 1 /\ -1 <= b <= 1 /\ f (i + a) (j + b) = true.
Proof.
  unfold dilate_at. rewrite existsb_exists. split.
  - intros [[a b] [Hin Hf]]. apply in_structure3 in Hin.
    exists a, b. simpl in Hf. repeat split; try lia. exact Hf.
  - intros [a [b [Ha [Hb Hf]]]]. exists (a, b). split; [| exact Hf].
    apply in_structure3. lia.
Qed.

Lemma erode_at_center f i j : erode_at f i j = true -> f i j = true.
Proof.
  intros H. rewrite erode_at_spec in H.
  specialize (H 0 0 ltac:(lia) ltac:(lia)).
  rewrite !Z.add_0_r in H. exact H.
Qed.

(** The structuring element is symmetric, so dilation and erosion are
    adjoint. *)
Lemma dilate_erode_adjoint f g :
  le_fn (dilate_at f) g <-> le_fn f (erode_at g).
Proof.
  unfold le_fn. split; intros H i j Hf.
  - apply erode_at_spec. intros a b Ha Hb. apply H.
    apply dilate_at_spec. exists (- a), (- b).
    repeat split; try lia.
    replace (i + a + - a) with i by ring.
    replace (j + b + - b) with j by ring. exact Hf.
  - apply dilate_at_spec in Hf. destruct Hf as [a [b [Ha [Hb Hf]]]].
    specialize (H _ _ Hf). rewrite erode_at_spec in H.
    specialize (H (- a) (- b) ltac:(lia) ltac:(lia)).
    replace (i + a + - a) with i in H by ring.
    replace (j + b + - b) with j in H by ring. exact H.
Qed.

Lemma le_fn_refl f : le_fn f f.
Proof. intros i j H. exact H. Qed.

Lemma le_fn_trans f g h : le_fn f g -> le_fn g h -> le_fn f h.
Proof. intros H1 H2 i j H. apply H2, H1, H. Qed.

Lemma erode_at_mono f g : le_fn f g -> le_fn (erode_at f) (erode_at g).
Proof.
  intros H i j He. rewrite erode_at_spec in *.
  intros a b Ha Hb. apply H. apply He; assumption.
Qed.

Lemma dilate_at_mono f g : le_fn f g -> le_fn (dilate_at f) (dilate_at g).
Proof.
  intros H i j Hd. rewrite dilate_at_spec in *.
  destruct Hd as [a [b [Ha [Hb Hf]]]]. exists a, b.
  split; [exact Ha | split; [exact Hb |]]. apply H. exact Hf.
Qed.

Lemma opening_at_le f : le_fn (opening_at f) f.
Proof. apply dilate_erode_adjoint. apply le_fn_refl. Qed.

Lemma closing_at_ge f : le_fn f (closing_at f).
Proof. apply dilate_erode_adjoint. apply le_fn_refl. Qed.

Lemma opening_at_mono f g : le_fn f g -> le_fn (opening_at f) (opening_at g).
Proof. intros H. apply dilate_at_mono, erode_at_mono, H. Qed.

Lemma closing_at_mono f g : le_fn f g -> le_fn (closing_at f) (closing_at g).
Proof. intros H. apply erode_at_mono, dilate_at_mono, H. Qed.

Lemma opening_at_idem_ge f : le_fn (opening_at f) (opening_at (opening_at f)).
Proof.
  unfold opening_at at 1 2. apply dilate_at_mono.
  apply (closing_at_ge (erode_at f)).
Qed.

Lemma closing_at_idem_le f : le_fn (closing_at (closing_at f)) (closing_at f).
Proof.
  unfold closing_at at 1 3. apply erode_at_mono.
  apply (opening_at_le (dilate_at f)).
Qed.

(** Closing after opening is a morphological filter on the unbounded
    grid. *)
Lemma closing_opening_filter f i j :
  closing_at (opening_at (closing_at (opening_at f))) i j
  = closing_at (opening_at f) i j.
Proof.
  apply eq_true_iff_eq. split.
  - revert i j. change (le_fn (closing_at (opening_at (closing_at (opening_at f))))
                              (closing_at (opening_at f))).
    eapply le_fn_trans; [| apply closing_at_idem_le].
    apply closing_at_mono. apply opening_at_le.
  - revert i j. change (le_fn (closing_at (opening_at f))
                              (closing_at (opening_at (closing_at (opening_at f))))).
    apply closing_at_mono.
    eapply le_fn_trans; [apply opening_at_idem_ge |].
    apply opening_at_mono. apply closing_at_ge.
Qed.

Lemma le_fn_antisym f g i j : le_fn f g -> le_fn g f -> f i j = g i j.
Proof.
  intros H1 H2. apply eq_true_iff_eq. split; [apply H1 | apply H2].
Qed.

End Morphology.

(** ** Mask refiner on arrays *)

Lemma nth_as_nth_error {A : Type} (l : list A) (d : A) :
  forall n, nth n l d = match nth_error l n with Some x => x | None => d end.
Proof.
  induction l as [| x l IH]; intros [| n]; simpl; try reflexivity. apply IH.
Qed.

Lemma getb_lookup2 (m : mask) (i j : nat) :
  getb m (Z.of_nat i) (Z.of_nat j)
  = match lookup2 m i j with Some b => b | None => false end.
Proof.
  unfold getb, lookup2.
  destruct (Z.ltb_spec (Z.of_nat i) 0); [lia |].
  destruct (Z.ltb_spec (Z.of_nat j) 0); [lia |]. simpl.
  rewrite !Nat2Z.id. rewrite !nth_as_nth_error.
  destruct (nth_error m i) as [row |]; [reflexivity |].
  destruct j; reflexivity.
Qed.

Lemma inb_lookup2 (m : mask) (i j : nat) :
  inb m (Z.of_nat i) (Z.of_nat j)
  = match lookup2 m i j with Some _ => true | None => false end.
Proof.
  unfold inb, lookup2.
  destruct (Z.leb_spec 0 (Z.of_nat i)); [| lia].
  destruct (Z.leb_spec 0 (Z.of_nat j)); [| lia]. simpl.
  rewrite !Nat2Z.id. rewrite nth_as_nth_error.
  destruct (nth_error m i) as [row |] eqn:Hrow.
  - assert (Hi : (i < length m)%nat) by (apply nth_error_Some; congruence).
    apply Nat.ltb_lt in Hi. rewrite Hi. simpl.
    destruct (nth_error row j) eqn:Hj.
    + apply Nat.ltb_lt. apply nth_error_Some. congruence.
    + apply Nat.ltb_ge. apply nth_error_None. exact Hj.
  - apply nth_error_None in Hrow. apply Nat.ltb_ge in Hrow.
    rewrite Hrow. reflexivity.
Qed.

Lemma negative_index (m : mask) (i j : Z) :
  i < 0 \/ j < 0 -> getb m i j = false /\ inb m i j = false.
Proof.
  intros H. unfold getb, inb.
  destruct (Z.ltb_spec i 0), (Z.ltb_spec j 0),
    (Z.leb_spec 0 i), (Z.leb_spec 0 j); simpl; try lia; split; reflexivity.
Qed.

Lemma getb_inb (m : mask) (i j : Z) : getb m i j = true -> inb m i j = true.
Proof.
  intros H.
  destruct (Z.lt_ge_cases i 0) as [Hi | Hi];
    [rewrite (proj1 (negative_index m i j (or_introl Hi))) in H; discriminate |].
  destruct (Z.lt_ge_cases j 0) as [Hj | Hj];
    [rewrite (proj1 (negative_index m i j (or_intror Hj))) in H; discriminate |].
  rewrite <- (Z2Nat.id i Hi), <- (Z2Nat.id j Hj) in *.
  rewrite getb_lookup2 in H. rewrite inb_lookup2.
  destruct (lookup2 m (Z.to_nat i) (Z.to_nat j)); [reflexivity | discriminate].
Qed.

Lemma getb_mapij (F : Z -> Z -> bool) (m : mask) (i j : Z) :
  getb (mapij (fun i' j' (_ : bool) => F (Z.of_nat i') (Z.of_nat j')) m) i j
  = inb m i j && F i j.
Proof.
  destruct (Z.lt_ge_cases i 0) as [Hi | Hi].
  { destruct (negative_index m i j (or_introl Hi)) as [_ ->].
    apply (negative_index _ i j (or_introl Hi)). }
  destruct (Z.lt_ge_cases j 0) as [Hj | Hj].
  { destruct (negative_index m i j (or_intror Hj)) as [_ ->].
    apply (negative_index _ i j (or_intror Hj)). }
  rewrite <- (Z2Nat.id i Hi), <- (Z2Nat.id j Hj).
  rewrite getb_lookup2, inb_lookup2, lookup2_mapij.
  destruct (lookup2 m (Z.to_nat i) (Z.to_nat j)); reflexivity.
Qed.

Lemma inb_shape (m1 m2 : mask) (i j : Z) :
  shape m1 = shape m2 -> inb m1 i j = inb m2 i j.
Proof.
  intros Hs. unfold inb.
  assert (Hlen : length m1 = length m2).
  { rewrite <- (length_map (@length bool) m1), <- (length_map (@length bool) m2).
    unfold shape in Hs. rewrite Hs. reflexivity. }
  assert (Hrow : forall n, length (nth n m1 []) = length (nth n m2 [])).
  { intros n. change (@length bool []) with (@length bool []).
    rewrite <- (map_nth (@length bool) m1 [] n).
    rewrite <- (map_nth (@length bool) m2 [] n).
    unfold shape in Hs. rewrite Hs. reflexivity. }
  rewrite Hlen, Hrow. reflexivity.
Qed.

Lemma mask_ext (m1 m2 : mask) :
  shape m1 = shape m2 ->
  (forall i j, getb m1 i j = getb m2 i j) ->
  m1 = m2.
Proof.
  intros Hs Hget.
  assert (Hlen : length m1 = length m2).
  { rewrite <- (length_map (@length bool) m1), <- (length_map (@length bool) m2).
    unfold shape in Hs. rewrite Hs. reflexivity. }
  apply (nth_ext m1 m2 [] [] Hlen). intros n Hn.
  assert (Hrow : length (nth n m1 []) = length (nth n m2 [])).
  { rewrite <- (map_nth (@length bool) m1 [] n).
    rewrite <- (map_nth (@length bool) m2 [] n).
    unfold shape in Hs. rewrite Hs. reflexivity. }
  apply (nth_ext _ _ false false Hrow). intros k Hk.
  specialize (Hget (Z.of_nat n) (Z.of_nat k)).
  unfold getb in Hget.
  destruct (Z.ltb_spec (Z.of_nat n) 0); [lia |].
  destruct (Z.ltb_spec (Z.of_nat k) 0); [lia |].
  simpl in Hget. rewrite !Nat2Z.id in Hget. exact Hget.
Qed.

Lemma shape_binary_erosion m : shape (binary_erosion m) = shape m.
Proof. apply shape_mapij. Qed.

Lemma shape_binary_dilation m : shape (binary_dilation m) = shape m.
Proof. apply shape_mapij. Qed.

Lemma shape_refine m : shape (refine m) = shape m.
Proof.
  unfold refine, binary_closing, binary_opening.
  rewrite shape_binary_erosion, shape_binary_dilation,
    shape_binary_dilation, shape_binary_erosion. reflexivity.
Qed.

Lemma erode_at_ext f g i j :
  (forall a b, f a b = g a b) -> erode_at f i j = erode_at g i j.
Proof.
  intros H. apply le_fn_antisym; apply erode_at_mono; intros a b Hab;
    [rewrite <- H | rewrite H]; exact Hab.
Qed.

Lemma dilate_at_ext f g i j :
  (forall a b, f a b = g a b) -> dilate_at f i j = dilate_at g i j.
Proof.
  intros H. apply le_fn_antisym; apply dilate_at_mono; intros a b Hab;
    [rewrite <- H | rewrite H]; exact Hab.
Qed.

Lemma closing_opening_ext f g i j :
  (forall a b, f a b = g a b) ->
  closing_at (opening_at f) i j = closing_at (opening_at g) i j.
Proof.
  intros H. unfold closing_at, opening_at.
  apply erode_at_ext. intros a b. apply dilate_at_ext. intros a' b'.
  apply dilate_at_ext. intros a2 b2. apply erode_at_ext. exact H.
Qed.

Lemma getb_binary_erosion m i j :
  getb (binary_erosion m) i j = erode_at (getb m) i j.
Proof.
  unfold binary_erosion. rewrite getb_mapij.
  destruct (erode_at (getb m) i j) eqn:He; [| apply andb_false_r].
  rewrite (getb_inb m i j (erode_at_center _ _ _ He)). reflexivity.
Qed.

Lemma getb_binary_dilation m i j :
  getb (binary_dilation m) i j = inb m i j && dilate_at (getb m) i j.
Proof.
  unfold binary_dilation. apply getb_mapij.
Qed.

Lemma getb_binary_opening m i j :
  getb (binary_opening m) i j = opening_at (getb m) i j.
Proof.
  unfold binary_opening. rewrite getb_binary_dilation.
  rewrite (inb_shape _ m i j (shape_binary_erosion m)).
  rewrite (dilate_at_ext _ (erode_at (getb m)) i j (getb_binary_erosion m)).
  fold (opening_at (getb m)).
  destruct (opening_at (getb m) i j) eqn:Ho; [| apply andb_false_r].
  rewrite (getb_inb m i j (opening_at_le _ _ _ Ho)). reflexivity.
Qed.

Lemma getb_binary_closing m i j :
  getb (binary_closing m) i j
  = erode_at (fun a b => inb m a b && dilate_at (getb m) a b) i j.
Proof.
  unfold binary_closing. rewrite getb_binary_erosion.
  apply erode_at_ext. intros a b. apply getb_binary_dilation.
Qed.

(** The closing of SciPy erodes with a false border, so its result never
    touches the first or last row or column. *)
Lemma refine_inside m : le_fn (getb (refine m)) (erode_at (inb m)).
Proof.
  intros i j H. unfold refine in H. rewrite getb_binary_closing in H.
  rewrite erode_at_spec in *. intros a b Ha Hb.
  specialize (H a b Ha Hb). apply andb_true_iff in H. destruct H as [H _].
  rewrite <- H. symmetry. apply inb_shape.
  unfold binary_opening. rewrite shape_binary_dilation, shape_binary_erosion.
  reflexivity.
Qed.

(** On a mask whose true cells stay off the border the refiner is the
    closing of the opening on the unbounded grid. *)
Lemma getb_refine m i j :
  le_fn (getb m) (erode_at (inb m)) ->
  getb (refine m) i j = closing_at (opening_at (getb m)) i j.
Proof.
  intros Hclear. unfold refine. rewrite getb_binary_closing.
  unfold closing_at. apply erode_at_ext. intros a b.
  rewrite (dilate_at_ext _ (opening_at (getb m)) a b (getb_binary_opening m)).
  destruct (dilate_at (opening_at (getb m)) a b) eqn:Hd; [| apply andb_false_r].
  rewrite andb_true_r.
  assert (Hin : le_fn (dilate_at (opening_at (getb m))) (inb m)).
  { apply dilate_erode_adjoint.
    eapply le_fn_trans; [apply opening_at_le | exact Hclear]. }
  rewrite <- (Hin a b Hd). apply inb_shape.
  unfold binary_opening. rewrite shape_binary_dilation, shape_binary_erosion.
  reflexivity.
Qed.

Lemma border_clear_spec m :
  border_clear m = true -> le_fn (getb m) (erode_at (inb m)).
Proof.
  unfold border_clear. rewrite forallb_forall. intros H i j Hg.
  pose proof (getb_inb m i j Hg) as Hin.
  assert (Hi : 0 <= i).
  { destruct (Z.lt_ge_cases i 0) as [Hneg | Hpos]; [| exact Hpos].
    rewrite (proj1 (negative_index m i j (or_introl Hneg))) in Hg. discriminate. }
  assert (Hj : 0 <= j).
  { destruct (Z.lt_ge_cases j 0) as [Hneg | Hpos]; [| exact Hpos].
    rewrite (proj1 (negative_index m i j (or_intror Hneg))) in Hg. discriminate. }
  rewrite <- (Z2Nat.id i Hi), <- (Z2Nat.id j Hj) in *.
  apply (H (Z.to_nat i, Z.to_nat j)).
  apply where2_In. rewrite getb_lookup2 in Hg.
  destruct (lookup2 m (Z.to_nat i) (Z.to_nat j)) as [b |]; [| discriminate].
  exists b. split; [reflexivity | exact Hg].
Qed.

Lemma refine_fixed_when_clear m :
  le_fn (getb m) (erode_at (inb m)) -> refine (refine m) = refine m.
Proof.
  intros Hclear. apply mask_ext; [apply shape_refine |].
  intros i j.
  assert (Hclear' : le_fn (getb (refine m)) (erode_at (inb (refine m)))).
  { intros a b H. rewrite (erode_at_ext _ (inb m)).
    - apply refine_inside. exact H.
    - intros a' b'. apply inb_shape. apply shape_refine. }
  rewrite (getb_refine (refine m) i j Hclear').
  rewrite (getb_refine m i j Hclear).
  rewrite <- (closing_opening_filter (getb m) i j).
  apply closing_opening_ext. intros a b.
  apply (getb_refine m a b Hclear).
Qed.

(** C5 (as amended).  For every mask whose true cells all have their 3x3
    neighbourhood inside the array (no true cell in the first or last row or
    column), refining twice gives the same mask as refining once. *)
Theorem refine_idempotent_off_border :
  forall m : mask,
    border_clear m = true -> refine (refine m) = refine m.
Proof.
  intros m H. apply refine_fixed_when_clear. apply border_clear_spec. exact H.
Qed.

Lemma refine_idempotent_off_border_witness :
  refine (refine (classify white threshold block_6x6))
  = refine (classify white threshold block_6x6).
Proof.
  apply (refine_idempotent_off_border (classify white threshold block_6x6)).
  vm_compute. reflexivity.
Defined.

(** The refiner's output is always such a mask, so from the second
    application on nothing changes. *)
Lemma refine_stable_after_second (m : mask) :
  border_clear (refine m) = true /\
  refine (refine (refine m)) = refine (refine m).
Proof.
  assert (Hin : le_fn (getb (refine m)) (erode_at (inb (refine m)))).
  { intros a b H. rewrite (erode_at_ext _ (inb m)).
    - apply refine_inside. exact H.
    - intros a' b'. apply inb_shape. apply shape_refine. }
  split.
  - unfold border_clear. apply forallb_forall. intros [i j] Hq.
    apply where2_In in Hq. destruct Hq as [b [Hb Hbt]]. subst b. simpl.
    apply Hin. rewrite getb_lookup2, Hb. reflexivity.
  - apply refine_fixed_when_clear. exact Hin.
Qed.

(** C5, the claim as stated fails: the classifier's mask of an all-black 4x4
    image is all true; one refinement leaves the inner 2x2 block (the closing
    erodes against the false border), a second one removes it. *)
Lemma refine_not_idempotent :
  refine (classify white threshold all_black_4x4)
  = [[false; false; false; false];
     [false; true; true; false];
     [false; true; true; false];
     [false; false; false; false]] /\
  refine (refine (classify white threshold all_black_4x4))
  = [[false; false; false; false];
     [false; false; false; false];
     [false; false; false; false];
     [false; false; false; false]] /\
  refine (refine (classify white threshold all_black_4x4))
  <> refine (classify white threshold all_black_4x4).
Proof.
  split; [vm_compute; reflexivity |].
  split; [vm_compute; reflexivity |].
  vm_compute. discriminate.
Qed.

(** ** Empty masks, continued *)

Lemma no_true_getb (m : mask) :
  no_true m = true <-> forall i j, getb m i j = false.
Proof.
  unfold no_true. split.
  - intros H i j. destruct (getb m i j) eqn:Hg; [| reflexivity]. exfalso.
    pose proof (getb_inb m i j Hg) as Hin. unfold inb in Hin.
    apply andb_true_iff in Hin. destruct Hin as [Hin _].
    apply andb_true_iff in Hin. destruct Hin as [Hin _].
    apply andb_true_iff in Hin. destruct Hin as [Hi Hj].
    apply Z.leb_le in Hi, Hj.
    rewrite <- (Z2Nat.id i Hi), <- (Z2Nat.id j Hj) in Hg.
    rewrite getb_lookup2 in Hg. unfold lookup2 in Hg.
    destruct (nth_error m (Z.to_nat i)) as [row |] eqn:Hrow; [| discriminate].
    destruct (nth_error row (Z.to_nat j)) as [b |] eqn:Hb; [| discriminate].
    subst b. rewrite forallb_forall in H.
    specialize (H row (nth_error_In _ _ Hrow)). rewrite forallb_forall in H.
    specialize (H true (nth_error_In _ _ Hb)). discriminate.
  - intros H. apply forallb_forall. intros row Hrow.
    apply forallb_forall. intros b Hb.
    apply In_nth_error in Hrow. destruct Hrow as [i Hi].
    apply In_nth_error in Hb. destruct Hb as [j Hj].
    specialize (H (Z.of_nat i) (Z.of_nat j)).
    rewrite getb_lookup2 in H. unfold lookup2 in H. rewrite Hi, Hj in H.
    subst b. reflexivity.
Qed.

Lemma refine_no_true (m : mask) : no_true m = true -> no_true (refine m) = true.
Proof.
  rewrite !no_true_getb. intros H i j.
  destruct (getb (refine m) i j) eqn:Hg; [| reflexivity].
  unfold refine in Hg. rewrite getb_binary_closing in Hg.
  apply erode_at_center in Hg. apply andb_true_iff in Hg. destruct Hg as [_ Hd].
  apply dilate_at_spec in Hd. destruct Hd as [a [b [_ [_ Hd]]]].
  rewrite getb_binary_opening in Hd. apply opening_at_le in Hd.
  rewrite H in Hd. discriminate.
Qed.

Lemma all_white_no_content (img : image) :
  all_white img = true -> no_true (Advanced.content_mask img) = true.
Proof.
  intros H. unfold Advanced.content_mask. apply refine_no_true.
  unfold no_true, classify, all_white in *.
  rewrite forallb_forall in *. intros row Hrow.
  apply in_map_iff in Hrow. destruct Hrow as [prow [<- Hprow]].
  specialize (H prow Hprow). rewrite forallb_forall in *.
  intros b Hb. apply in_map_iff in Hb. destruct Hb as [p [<- Hp]].
  specialize (H p Hp).
  apply andb_true_iff in H. destruct H as [H Hbl].
  apply andb_true_iff in H. destruct H as [Hr Hg].
  apply Z.eqb_eq in Hr, Hg, Hbl.
  unfold sum_sq_diff, white. rewrite Hr, Hg, Hbl. reflexivity.
Qed.

Lemma all_white_not_non_white (img : image) :
  all_white img = true ->
  forallb (forallb (fun p => negb (WithText.non_white p))) img = true.
Proof.
  unfold all_white. rewrite !forallb_forall. intros H row Hrow.
  specialize (H row Hrow). rewrite forallb_forall in *. intros p Hp.
  specialize (H p Hp).
  apply andb_true_iff in H. destruct H as [H Hbl].
  apply andb_true_iff in H. destruct H as [Hr Hg].
  apply Z.eqb_eq in Hr, Hg, Hbl.
  unfold WithText.non_white. rewrite Hr, Hg, Hbl. reflexivity.
Qed.

(** A mask with no true cell has no bounding box: the extraction raises
    (NumPy's [IndexError], line 31).  The first script has no guard and no
    handler around it, so the run ends with that exception, nothing written;
    in particular so on every all-white image.  The second script tests for
    content first and, finding none, writes nothing and prints its
    diagnostic.  Neither writes an image of zero size. *)
Lemma empty_mask_no_output :
  forall (m : mask) (img : image),
    (no_true m = true -> bounding_box m = inl IndexError) /\
    (no_true (Advanced.content_mask img) = true ->
     Advanced.main img = inl IndexError) /\
    (forallb (forallb (fun p => negb (WithText.non_white p))) img = true ->
     WithText.main img = inr (mkRun [] ["No content found in image"%string])) /\
    (all_white img = true ->
     Advanced.main img = inl IndexError /\
     WithText.main img = inr (mkRun [] ["No content found in image"%string])).
Proof.
  assert (Hbb : forall m : mask, no_true m = true -> bounding_box m = inl IndexError).
  { intros m H. unfold bounding_box.
    rewrite (where1_nil _ (any_axis1_no_true m H)). reflexivity. }
  assert (Hadv : forall img, no_true (Advanced.content_mask img) = true ->
                             Advanced.main img = inl IndexError).
  { intros img H. unfold Advanced.main. rewrite (Hbb _ H). reflexivity. }
  assert (Htxt : forall img,
             forallb (forallb (fun p => negb (WithText.non_white p))) img = true ->
             WithText.main img = inr (mkRun [] ["No content found in image"%string])).
  { intros img H. unfold WithText.main. rewrite (where2_nil _ _ H). reflexivity. }
  intros m img.
  split; [apply Hbb |]. split; [apply Hadv |]. split; [apply Htxt |].
  intros Hw. split.
  - apply Hadv. apply all_white_no_content. exact Hw.
  - apply Htxt. apply all_white_not_non_white. exact Hw.
Qed.

(** C4.  On the all-white 3x3 image the content mask has no true cell and the
    bounding-box extraction raises.  The first script does not handle it: the
    run ends with the uncaught [IndexError] of line 31, with no fallback and
    no diagnostic of its own.  The second script handles the same case: it
    prints 'No content found in image' and writes nothing. *)
Theorem advanced_empty_mask_unhandled :
  no_true (Advanced.content_mask all_white_3x3) = true /\
  bounding_box (Advanced.content_mask all_white_3x3) = inl IndexError /\
  Advanced.main all_white_3x3 = inl IndexError /\
  WithText.main all_white_3x3
  = inr (mkRun [] ["No content found in image"%string]).
Proof.
  repeat split; vm_compute; reflexivity.
Qed.

(** * Further properties of the scripts *)

(** ** Classifier *)

(** The comment of line 18, "higher = more aggressive": raising the threshold
    never turns a background pixel into content. *)
Theorem classify_threshold_antitone :
  forall (img : image) (ref : Z * Z * Z) (t1 t2 : Z) (i j : nat),
    t1 <= t2 ->
    lookup2 (classify ref t2 img) i j = Some true ->
    lookup2 (classify ref t1 img) i j = Some true.
Proof.
  intros img ref t1 t2 i j Hle. unfold classify. rewrite !lookup2_map.
  destruct (lookup2 img i j) as [p |]; simpl; [| discriminate].
  intros H. assert (Hs : sqrt_gtb (sum_sq_diff ref p) t2 = true) by congruence.
  clear H. rename Hs into H. f_equal. unfold sqrt_gtb in *.
  destruct (Z.ltb_spec t1 0) as [| H1]; [reflexivity |].
  destruct (Z.ltb_spec t2 0) as [| H2]; [lia |].
  apply Z.ltb_lt in H. apply Z.ltb_lt. nia.
Qed.

Lemma classify_threshold_antitone_witness :
  lookup2 (classify white 20 [[black_px; white_px]]) 0 0 = Some true.
Proof.
  apply (classify_threshold_antitone [[black_px; white_px]] white 20 100 0 0).
  - lia.
  - reflexivity.
Defined.

(** ** Erosion, dilation, opening and closing on arrays *)

Lemma erode_at_and f g i j :
  erode_at (fun a b => f a b && g a b) i j = erode_at f i j && erode_at g i j.
Proof.
  apply eq_true_iff_eq. rewrite andb_true_iff, !erode_at_spec. split.
  - intros H. split; intros a b Ha Hb; specialize (H a b Ha Hb);
      apply andb_true_iff in H; tauto.
  - intros [Hf Hg] a b Ha Hb. rewrite Hf, Hg by assumption. reflexivity.
Qed.

Lemma opening_at_ext f g i j :
  (forall a b, f a b = g a b) -> opening_at f i j = opening_at g i j.
Proof.
  intros H. unfold opening_at. apply dilate_at_ext. intros a b.
  apply erode_at_ext. exact H.
Qed.

Lemma closing_at_ext f g i j :
  (forall a b, f a b = g a b) -> closing_at f i j = closing_at g i j.
Proof.
  intros H. unfold closing_at. apply erode_at_ext. intros a b.
  apply dilate_at_ext. exact H.
Qed.

Lemma shape_binary_opening m : shape (binary_opening m) = shape m.
Proof.
  unfold binary_opening. rewrite shape_binary_dilation. apply shape_binary_erosion.
Qed.

Lemma shape_binary_closing m : shape (binary_closing m) = shape m.
Proof.
  unfold binary_closing. rewrite shape_binary_erosion. apply shape_binary_dilation.
Qed.

(** Erosion only removes cells and dilation only adds cells; both keep the
    shape of the array. *)
Theorem erosion_below_dilation_above :
  forall m : mask,
    le_fn (getb (binary_erosion m)) (getb m) /\
    le_fn (getb m) (getb (binary_dilation m)) /\
    shape (binary_erosion m) = shape m /\
    shape (binary_dilation m) = shape m.
Proof.
  intros m. split; [| split; [| split]].
  - intros i j H. rewrite getb_binary_erosion in H.
    apply erode_at_center. exact H.
  - intros i j H. rewrite getb_binary_dilation.
    rewrite (getb_inb m i j H). simpl.
    apply dilate_at_spec. exists 0, 0. rewrite !Z.add_0_r.
    repeat split; try lia. exact H.
  - apply shape_binary_erosion.
  - apply shape_binary_dilation.
Qed.

(** The opening, unlike the refiner as a whole, is idempotent on every
    array, and it only removes cells. *)
Theorem binary_opening_idempotent :
  forall m : mask,
    binary_opening (binary_opening m) = binary_opening m /\
    le_fn (getb (binary_opening m)) (getb m).
Proof.
  intros m. split.
  - apply mask_ext; [apply shape_binary_opening |].
    intros i j. rewrite !getb_binary_opening.
    rewrite (opening_at_ext _ (opening_at (getb m)) i j (getb_binary_opening m)).
    apply le_fn_antisym; [apply opening_at_le | apply opening_at_idem_ge].
  - intros i j H. rewrite getb_binary_opening in H.
    apply (opening_at_le _ _ _ H).
Qed.

(** With SciPy's false border the closing is the closing on the unbounded
    grid cut down to the cells whose 3x3 neighbourhood lies inside the
    array. *)
Lemma getb_binary_closing_interior m i j :
  getb (binary_closing m) i j
  = erode_at (inb m) i j && closing_at (getb m) i j.
Proof.
  rewrite getb_binary_closing. apply erode_at_and.
Qed.

(** The closing is idempotent on every array, and its result never has a
    true cell in the first or last row or column. *)
Theorem binary_closing_idempotent :
  forall m : mask,
    binary_closing (binary_closing m) = binary_closing m /\
    le_fn (getb (binary_closing m)) (erode_at (inb m)).
Proof.
  intros m. split.
  - apply mask_ext; [apply shape_binary_closing |].
    intros i j. rewrite (getb_binary_closing_interior (binary_closing m)).
    rewrite (getb_binary_closing_interior m).
    rewrite (erode_at_ext (inb (binary_closing m)) (inb m) i j)
      by (intros a b; apply inb_shape, shape_binary_closing).
    destruct (erode_at (inb m) i j) eqn:Hin; simpl; [| reflexivity].
    set (c := fun a b => erode_at (inb m) a b && closing_at (getb m) a b).
    rewrite (closing_at_ext _ c i j (getb_binary_closing_interior m)).
    apply eq_true_iff_eq. split.
    + intros H. apply closing_at_idem_le.
      revert H. apply closing_at_mono. intros a b Hc. unfold c in Hc.
      apply andb_true_iff in Hc. tauto.
    + intros H. apply closing_at_ge. unfold c. rewrite Hin, H. reflexivity.
  - intros i j H. rewrite getb_binary_closing_interior in H.
    apply andb_true_iff in H. tauto.
Qed.

(** The refiner on every array: the closing of the opening on the unbounded
    grid, cut down to the cells whose 3x3 neighbourhood lies inside the
    array. *)
Theorem refine_pointwise :
  forall (m : mask) (i j : Z),
    getb (refine m) i j
    = erode_at (inb m) i j && closing_at (opening_at (getb m)) i j.
Proof.
  intros m i j. unfold refine. rewrite getb_binary_closing_interior.
  rewrite (erode_at_ext (inb (binary_opening m)) (inb m) i j)
    by (intros a b; apply inb_shape, shape_binary_opening).
  rewrite (closing_at_ext _ (opening_at (getb m)) i j (getb_binary_opening m)).
  reflexivity.
Qed.

(** The refiner is monotone: on arrays of one shape, a larger mask refines
    to a larger mask. *)
Theorem refine_monotone :
  forall m1 m2 : mask,
    shape m1 = shape m2 ->
    le_fn (getb m1) (getb m2) ->
    le_fn (getb (refine m1)) (getb (refine m2)).
Proof.
  intros m1 m2 Hs Hle i j H. rewrite refine_pointwise in *.
  apply andb_true_iff in H. destruct H as [Hin Hc].
  rewrite (erode_at_ext (inb m2) (inb m1) i j)
    by (intros a b; symmetry; apply inb_shape, Hs).
  rewrite Hin. simpl.
  revert Hc. apply closing_at_mono, opening_at_mono, Hle.
Qed.

(** A pointwise order between two concrete masks is decided by looking at
    the true cells of the smaller one. *)
Lemma le_fn_by_cells (m1 m2 : mask) :
  forallb (fun q => getb m2 (Z.of_nat (fst q)) (Z.of_nat (snd q)))
          (where2 (fun b : bool => b) m1) = true ->
  le_fn (getb m1) (getb m2).
Proof.
  rewrite forallb_forall. intros H i j Hg.
  pose proof (getb_inb m1 i j Hg) as Hin. unfold inb in Hin.
  apply andb_true_iff in Hin. destruct Hin as [Hin _].
  apply andb_true_iff in Hin. destruct Hin as [Hin _].
  apply andb_true_iff in Hin. destruct Hin as [Hi Hj].
  apply Z.leb_le in Hi, Hj.
  rewrite <- (Z2Nat.id i Hi), <- (Z2Nat.id j Hj) in *.
  apply (H (Z.to_nat i, Z.to_nat j)).
  apply where2_In. rewrite getb_lookup2 in Hg.
  destruct (lookup2 m1 (Z.to_nat i) (Z.to_nat j)) as [b |]; [| discriminate].
  exists b. split; [reflexivity | exact Hg].
Qed.

(** A 3x3 block inside a 5x5 block, both in a 7x7 array: the refinements are
    the two blocks themselves. *)
Lemma refine_monotone_witness :
  let m1 := classify white threshold
              (paint 7 7 (fun i j => between 1 3 i && between 1 3 j)) in
  let m2 := classify white threshold
              (paint 7 7 (fun i j => between 1 5 i && between 1 5 j)) in
  le_fn (getb (refine m1)) (getb (refine m2)) /\
  refine m1 = m1 /\ refine m2 = m2 /\ m1 <> m2.
Proof.
  cbv zeta. split; [| split; [| split]].
  - apply (refine_monotone
             (classify white threshold
                (paint 7 7 (fun i j => between 1 3 i && between 1 3 j)))
             (classify white threshold
                (paint 7 7 (fun i j => between 1 5 i && between 1 5 j)))).
    + vm_compute. reflexivity.
    + apply le_fn_by_cells. vm_compute. reflexivity.
  - vm_compute. reflexivity.
  - vm_compute. reflexivity.
  - vm_compute. discriminate.
Defined.

(** The content mask of the first script has the shape of the image. *)
Theorem content_mask_shape :
  forall img : image, shape (Advanced.content_mask img) = shape img.
Proof.
  intros img. unfold Advanced.content_mask.
  rewrite shape_refine. unfold classify. apply shape_map.
Qed.

(** ** Bounding box *)

Section BoundingBox.

#[local] Open Scope nat_scope.

Lemma where1_In (v : list bool) (x : nat) :
  In x (where1 v) <-> nth_error v x = Some true.
Proof.
  unfold where1. rewrite in_concat_mapi. simpl. split.
  - intros [n [b [Hn Hin]]]. destruct b; [| destruct Hin].
    destruct Hin as [<- | []]. exact Hn.
  - intros H. exists x, true. split; [exact H | left; reflexivity].
Qed.

Lemma last_cons {A : Type} (rest : list A) :
  forall a d, last (a :: rest) d = last rest a.
Proof.
  induction rest as [| b rest IH]; intros a d; [reflexivity |].
  change (last (a :: b :: rest) d) with (last (b :: rest) d).
  rewrite (IH b d), (IH b a). reflexivity.
Qed.

Lemma last_In {A : Type} (rest : list A) (a : A) : In (last rest a) (a :: rest).
Proof.
  revert a. induction rest as [| b rest IH]; intros a; [left; reflexivity |].
  rewrite last_cons. right. apply IH.
Qed.

(** [np.where] lists indices in increasing order, so the first entry is the
    least and the last entry the greatest. *)
Lemma where1_from_ordered (v : list bool) :
  forall k,
    let l := concat (mapi_from (fun i (b : bool) => if b then [i] else []) k v) in
    (forall x, In x l -> k <= x) /\
    match l with
    | [] => True
    | a :: rest => forall x, In x l -> a <= x <= last rest a
    end.
Proof.
  induction v as [| b v IH]; intros k; simpl; [split; [intros x [] | exact I] |].
  specialize (IH (S k)). simpl in IH. destruct IH as [IHlo IHb].
  set (l' := concat (mapi_from (fun i (b0 : bool) => if b0 then [i] else []) (S k) v))
    in *.
  destruct b; simpl.
  - split.
    + intros x [<- | Hx]; [lia |]. specialize (IHlo x Hx). lia.
    + intros x Hx. destruct l' as [| a' rest'].
      * destruct Hx as [<- | []]. simpl. lia.
      * rewrite last_cons.
        pose proof (IHb a' (or_introl eq_refl)) as Ha'.
        pose proof (IHlo a' (or_introl eq_refl)) as Hk.
        destruct Hx as [<- | Hx]; [lia |].
        specialize (IHb x Hx). specialize (IHlo x Hx). lia.
  - split; [| exact IHb].
    intros x Hx. specialize (IHlo x Hx). lia.
Qed.

Lemma first_last_where1 (v : list bool) (i : nat) :
  nth_error v i = Some true ->
  exists lo hi,
    first_last (where1 v) = inr (lo, hi) /\
    lo <= i <= hi /\
    nth_error v lo = Some true /\
    nth_error v hi = Some true.
Proof.
  intros Hi. apply where1_In in Hi.
  pose proof (where1_from_ordered v 0) as [_ Hb]. simpl in Hb.
  fold (where1 v) in Hb.
  pose proof (where1_In v) as Hin.
  destruct (where1 v) as [| a rest]; [destruct Hi |].
  exists a, (last rest a). split; [reflexivity |].
  split; [apply Hb; exact Hi |]. split.
  - apply Hin. left. reflexivity.
  - apply Hin. apply last_In.
Qed.

Lemma any_axis1_true (m : mask) (i : nat) :
  nth_error (any_axis1 m) i = Some true <->
  exists j, lookup2 m i j = Some true.
Proof.
  unfold any_axis1, lookup2. rewrite nth_error_map.
  destruct (nth_error m i) as [row |]; simpl.
  - split.
    + intros H. injection H as H. apply existsb_exists in H.
      destruct H as [b [Hin Hb]]. subst b.
      apply In_nth_error in Hin. exact Hin.
    + intros [j Hj]. f_equal. apply existsb_exists.
      exists true. split; [apply (nth_error_In _ _ Hj) | reflexivity].
  - split; [discriminate | intros [j Hj]; discriminate].
Qed.

Lemma nth_error_seq_from (n : nat) :
  forall s k, nth_error (seq s n) k = if k <? n then Some (s + k) else None.
Proof.
  induction n as [| n IH]; intros s k; simpl.
  - destruct k; reflexivity.
  - destruct k as [| k]; simpl.
    + rewrite Nat.add_0_r. reflexivity.
    + rewrite IH. change (S k <? S n) with (k <? n).
      rewrite Nat.add_succ_r. reflexivity.
Qed.

Lemma any_axis0_true (m : mask) (j : nat) :
  nth_error (any_axis0 m) j = Some true <->
  j < length (hd [] m) /\ exists i, lookup2 m i j = Some true.
Proof.
  unfold any_axis0. rewrite nth_error_map, nth_error_seq_from. simpl.
  destruct (Nat.ltb_spec j (length (hd [] m))) as [Hj | Hj]; simpl.
  - split.
    + intros H. injection H as H. split; [exact Hj |].
      apply existsb_exists in H. destruct H as [row [Hin Hb]].
      apply In_nth_error in Hin. destruct Hin as [i Hi].
      exists i. unfold lookup2. rewrite Hi.
      rewrite nth_as_nth_error in Hb.
      destruct (nth_error row j) as [b |]; [subst b; reflexivity | discriminate].
    + intros [_ [i Hi]]. f_equal. apply existsb_exists.
      unfold lookup2 in Hi.
      destruct (nth_error m i) as [row |] eqn:Hrow; [| discriminate].
      exists row. split; [apply (nth_error_In _ _ Hrow) |].
      rewrite nth_as_nth_error, Hi. reflexivity.
  - split; [discriminate | intros [Hj' _]; lia].
Qed.

Lemma rectangular_width {A : Type} (arr : list (list A)) i j x :
  rectangular arr = true -> lookup2 arr i j = Some x -> j < length (hd [] arr).
Proof.
  unfold rectangular, lookup2. intros Hr Hx.
  destruct (nth_error arr i) as [row |] eqn:Hrow; [| discriminate].
  rewrite forallb_forall in Hr.
  specialize (Hr row (nth_error_In _ _ Hrow)). apply Nat.eqb_eq in Hr.
  rewrite <- Hr. apply nth_error_Some. congruence.
Qed.

(** Lines 29-32.  On a rectangular mask with a true cell the extraction
    succeeds; the box holds every true cell, and each of its four sides
    passes through a true cell, so no smaller box would do. *)
Theorem bounding_box_tight :
  forall (m : mask) (i j : nat),
    rectangular m = true ->
    lookup2 m i j = Some true ->
    exists bb : bbox,
      bounding_box m = inr bb /\
      ymin bb <= i <= ymax bb /\
      xmin bb <= j <= xmax bb /\
      (exists c, lookup2 m (ymin bb) c = Some true) /\
      (exists c, lookup2 m (ymax bb) c = Some true) /\
      (exists r, lookup2 m r (xmin bb) = Some true) /\
      (exists r, lookup2 m r (xmax bb) = Some true).
Proof.
  intros m i j Hrect Hij.
  assert (Hrow : nth_error (any_axis1 m) i = Some true)
    by (apply any_axis1_true; exists j; exact Hij).
  assert (Hcol : nth_error (any_axis0 m) j = Some true).
  { apply any_axis0_true. split; [| exists i; exact Hij].
    apply (rectangular_width m i j true Hrect Hij). }
  destruct (first_last_where1 _ _ Hrow) as [y0 [y1 [Hy [Hyi [Hy0 Hy1]]]]].
  destruct (first_last_where1 _ _ Hcol) as [x0 [x1 [Hx [Hxj [Hx0 Hx1]]]]].
  exists (mkBbox y0 y1 x0 x1). unfold bounding_box. rewrite Hy, Hx. simpl.
  split; [reflexivity |]. split; [exact Hyi |]. split; [exact Hxj |].
  apply any_axis1_true in Hy0, Hy1. apply any_axis0_true in Hx0, Hx1.
  repeat split; tauto.
Qed.

End BoundingBox.

Lemma bounding_box_tight_witness :
  exists bb : bbox,
    bounding_box [[false; false; false]; [false; true; true]] = inr bb /\
    (ymin bb <= 1 <= ymax bb)%nat /\
    (xmin bb <= 2 <= xmax bb)%nat /\
    (exists c, lookup2 [[false; false; false]; [false; true; true]] (ymin bb) c
               = Some true) /\
    (exists c, lookup2 [[false; false; false]; [false; true; true]] (ymax bb) c
               = Some true) /\
    (exists r, lookup2 [[false; false; false]; [false; true; true]] r (xmin bb)
               = Some true) /\
    (exists r, lookup2 [[false; false; false]; [false; true; true]] r (xmax bb)
               = Some true).
Proof.
  apply (bounding_box_tight [[false; false; false]; [false; true; true]] 1 2).
  - reflexivity.
  - reflexivity.
Defined.

(** ** Crop rows *)

Lemma crop_row_ratio (y0 y1 : Z) (n : Z) (d : positive) :
  0 <= y0 <= y1 -> 0 <= n ->
  crop_row y0 y1 (n # d) = y0 + n * (y1 - y0) / Zpos d.
Proof.
  intros Hy Hn.
  assert (Hf : (0 <= n # d)%Q) by (unfold Qle; simpl; lia).
  rewrite (crop_row_eq y0 y1 (n # d) Hy Hf).
  unfold Qfloor, Qmult, inject_Z. simpl. rewrite Pos.mul_1_r. reflexivity.
Qed.

(** Lines 39-40.  Both cut rows lie inside the bounding box, the
    graphic-only cut never lies below the graphic-plus-text cut, and as soon
    as the content spans two rows the last content row is left out of both
    outputs. *)
Theorem crop_rows_ordered :
  forall y0 y1 : Z,
    0 <= y0 <= y1 ->
    y0 <= graphic_only_y y0 y1 <= graphic_text_y y0 y1 /\
    graphic_text_y y0 y1 <= y1 /\
    (y0 < y1 -> graphic_text_y y0 y1 < y1).
Proof.
  intros y0 y1 Hy. unfold graphic_only_y, graphic_text_y.
  rewrite !crop_row_ratio by lia.
  assert (H60 : 0 <= 60 * (y1 - y0) / 100)
    by (apply Z.div_pos; lia).
  assert (Hle : 60 * (y1 - y0) / 100 <= 75 * (y1 - y0) / 100)
    by (apply Z.div_le_mono; lia).
  assert (H75 : 75 * (y1 - y0) / 100 <= y1 - y0)
    by (apply Z.div_le_upper_bound; lia).
  split; [lia |]. split; [lia |].
  intros Hlt.
  assert (75 * (y1 - y0) / 100 < y1 - y0)
    by (apply Z.div_lt_upper_bound; lia).
  lia.
Qed.

Lemma crop_rows_ordered_witness :
  40 <= graphic_only_y 40 59 <= graphic_text_y 40 59 /\
  graphic_text_y 40 59 <= 59 /\
  (40 < 59 -> graphic_text_y 40 59 < 59).
Proof.
  apply (crop_rows_ordered 40 59). lia.
Defined.

(** Line 26 of the second script.  The cut is three quarters of the last
    content row and takes no account of the first one; used as the exclusive
    lower edge of the crop, it leaves the last content row out, and it lies
    above the first content row whenever that row is beyond three quarters
    of the last. *)
Theorem text_cut_ignores_first_row :
  forall min_y max_y : Z,
    0 <= min_y <= max_y ->
    graphic_text_max_y max_y = 3 * max_y / 4 /\
    graphic_text_max_y max_y <= max_y /\
    (3 * max_y < 4 * min_y -> graphic_text_max_y max_y < min_y).
Proof.
  intros min_y max_y Hy.
  rewrite graphic_text_max_y_eq by lia.
  split; [reflexivity |]. split.
  - apply Z.div_le_upper_bound; lia.
  - intros H. apply Z.div_lt_upper_bound; lia.
Qed.

Lemma text_cut_ignores_first_row_witness :
  graphic_text_max_y 59 = 3 * 59 / 4 /\
  graphic_text_max_y 59 <= 59 /\
  (3 * 59 < 4 * 50 -> graphic_text_max_y 59 < 50).
Proof.
  apply (text_cut_ignores_first_row 50 59). lia.
Defined.

(** ** Alpha values *)

(** Lines 35-43 of the second script against its line 15: a pixel the
    matting keeps opaque always counts as content for the bounding box, and
    has a channel of at most 150; a pure white pixel is made transparent. *)
Theorem matte_opaque_is_content :
  forall (img : image) (i j : nat),
    (lookup2 (matte_alpha img) i j = Some 255 ->
     exists p, lookup2 img i j = Some p /\
               WithText.non_white p = true /\
               (red p <= 150 \/ green p <= 150 \/ blue p <= 150)) /\
    (lookup2 img i j = Some white_px -> lookup2 (matte_alpha img) i j = Some 0).
Proof.
  intros img i j. unfold matte_alpha. rewrite lookup2_map. split.
  - destruct (lookup2 img i j) as [p |]; simpl; [| discriminate].
    unfold grayish, light_pixel, WithText.non_white.
    destruct (Z.ltb_spec (3 * 180) (red p + green p + blue p)) as [| Hg];
      [discriminate |].
    destruct (Z.ltb_spec 150 (red p)) as [Hr |];
      destruct (Z.ltb_spec 150 (green p)) as [Hgr |];
      destruct (Z.ltb_spec 150 (blue p)) as [Hb |]; simpl;
      try discriminate; intros _; exists p;
      (split; [reflexivity | split; [apply Z.ltb_lt; lia | lia]]).
  - intros ->. reflexivity.
Qed.

Lemma sum_of_squares_small (x y : Z) :
  x * x + y * y < 4 -> x * x + y * y <> 0 ->
  x * x + y * y = 1 \/ x * x + y * y = 2.
Proof.
  intros H4 H0.
  assert (Hx : -1 <= x <= 1) by nia.
  assert (Hy : -1 <= y <= 1) by nia.
  assert (Ex : x = -1 \/ x = 0 \/ x = 1) by lia.
  assert (Ey : y = -1 \/ y = 0 \/ y = 1) by lia.
  destruct Ex as [-> | [-> | ->]]; destruct Ey as [-> | [-> | ->]]; simpl in *; lia.
Qed.

Lemma sq_dist_zero (i j : nat) (q : nat * nat) : sq_dist i j q = 0 -> q = (i, j).
Proof.
  unfold sq_dist. destruct q as [qi qj]. simpl. intros H.
  assert (Z.of_nat i - Z.of_nat qi = 0) by nia.
  assert (Z.of_nat j - Z.of_nat qj = 0) by nia.
  f_equal; lia.
Qed.

(** The distance transform is at least 1 at a true cell, and its square is a
    sum of two squares. *)
Lemma edt_sq_at_true_cell (m : mask) (i j : nat) :
  lookup2 m i j = Some true ->
  exists x y : Z,
    edt_sq_at (where2 negb m) i j = x * x + y * y /\ x * x + y * y <> 0.
Proof.
  intros Ht. destruct (where2 negb m) as [| q0 bg] eqn:Hbg.
  - change (edt_sq_at [] i j) with ((Z.of_nat i + 1) ^ 2 + Z.of_nat j ^ 2).
    exists (Z.of_nat i + 1), (Z.of_nat j). split; [ring | nia].
  - assert (Hne : q0 :: bg <> []) by discriminate.
    destruct (edt_sq_at_least (q0 :: bg) i j Hne) as [[q [Hq Hqd]] _].
    rewrite <- Hqd.
    exists (Z.of_nat i - Z.of_nat (fst q)), (Z.of_nat j - Z.of_nat (snd q)).
    split; [unfold sq_dist; ring |].
    intros H0.
    assert (Hq0 : sq_dist i j q = 0) by (unfold sq_dist; rewrite <- H0; ring).
    apply sq_dist_zero in Hq0. subst q.
    rewrite <- Hbg in Hq. apply where2_In in Hq.
    destruct Hq as [b [Hb Hnb]]. rewrite Ht in Hb. injection Hb as <-.
    discriminate.
Qed.

(** Lines 52-58 with the falloff width 2 of line 57.  The smoothed alpha
    takes only the four values 0, 127, 180 and 255, and it is positive
    exactly at the true cells of the cropped mask: smoothing never makes a
    content pixel fully transparent. *)
Theorem soft_alpha_levels :
  forall (m : mask) (i j : nat) (a : Z),
    lookup2 (soft_alpha falloff m) i j = Some a ->
    (a = 0 \/ a = 127 \/ a = 180 \/ a = 255) /\
    (0 < a <-> lookup2 m i j = Some true).
Proof.
  intros m i j a. rewrite lookup2_soft_alpha.
  destruct (lookup2 m i j) as [[|] |] eqn:Hb; simpl; [| | discriminate].
  - destruct (edt_sq_at_true_cell m i j Hb) as [x [y [-> Hnz]]].
    intros H. injection H as <-. unfold scale_by_ramp, falloff.
    destruct (Z.leb_spec (2 * 2) (x * x + y * y)) as [| Hlt].
    + split; [auto | split; [reflexivity | lia]].
    + destruct (sum_of_squares_small x y ltac:(lia) Hnz) as [-> | ->];
        vm_compute; split; auto; split; reflexivity || discriminate.
  - change (255 * 0) with 0. rewrite scale_by_ramp_zero.
    intros H. injection H as <-. split; [auto |].
    split; [lia | discriminate].
Qed.

Lemma soft_alpha_levels_witness :
  (127 = 0 \/ 127 = 127 \/ 127 = 180 \/ 127 = 255) /\
  (0 < 127 <-> lookup2 [[true; true; false]] 0 1 = Some true).
Proof.
  apply (soft_alpha_levels [[true; true; false]] 0 1 127).
  vm_compute. reflexivity.
Defined.

(** ** Trim step, what it keeps *)

Section TrimKeeps.

#[local] Open Scope nat_scope.

(** The trimmed grid is a window of the input grid that holds every pixel of
    alpha > 0: no visible pixel is lost or moved relative to the others, and
    nothing is invented. *)
Theorem trim_window :
  forall img : image,
    exists top left : nat,
      (forall i j p,
          lookup2 (trim img) i j = Some p ->
          lookup2 img (top + i) (left + j) = Some p) /\
      (forall i j p,
          lookup2 img i j = Some p -> (0 < alpha_ch p)%Z ->
          top <= i /\ left <= j /\
          lookup2 (trim img) (i - top) (j - left) = Some p).
Proof.
  intros img. unfold trim.
  destruct (where2 (fun p => (0 <? alpha_ch p)%Z) img) as [| [r c] rest] eqn:HP.
  - exists 0, 0. split.
    + intros i j p H. exact H.
    + intros i j p H _. rewrite !Nat.sub_0_r. repeat split; try lia. exact H.
  - pose proof (extremes_of r c rest) as E. rewrite <- HP in E.
    set (t := min_of r (map fst rest)) in *.
    set (b := max_of r (map fst rest)) in *.
    set (l := min_of c (map snd rest)) in *.
    set (rt := max_of c (map snd rest)) in *.
    exists t, l. split.
    + intros i j p H. rewrite lookup2_slice2 in H.
      destruct ((i <? b + 1 - t) && (j <? rt + 1 - l)); [exact H | discriminate].
    + intros i j p H Ha.
      assert (Hin : In (i, j) (where2 (fun p => (0 <? alpha_ch p)%Z) img)).
      { apply where2_In. exists p. split; [exact H |]. apply Z.ltb_lt. exact Ha. }
      destruct E as [_ _ _ _ Hall]. specialize (Hall i j Hin).
      split; [lia |]. split; [lia |].
      rewrite lookup2_slice2.
      replace (i - t <? b + 1 - t) with true by (symmetry; apply Nat.ltb_lt; lia).
      replace (j - l <? rt + 1 - l) with true by (symmetry; apply Nat.ltb_lt; lia).
      simpl. replace (t + (i - t)) with i by lia.
      replace (l + (j - l)) with j by lia. exact H.
Qed.

Lemma lookup2_bounds {A : Type} (arr : list (list A)) i j x :
  rectangular arr = true -> lookup2 arr i j = Some x ->
  i < length arr /\ j < length (hd [] arr).
Proof.
  intros Hr Hx. split; [| apply (rectangular_width arr i j x Hr Hx)].
  unfold lookup2 in Hx.
  destruct (nth_error arr i) as [row |] eqn:Hrow; [| discriminate].
  apply nth_error_Some. congruence.
Qed.

Lemma slice2_dims {A : Type} (arr : list (list A)) t b l r :
  rectangular arr = true ->
  t <= b < length arr -> l <= r < length (hd [] arr) ->
  length (slice2 t (b + 1) l (r + 1) arr) = b - t + 1 /\
  length (hd [] (slice2 t (b + 1) l (r + 1) arr)) = r - l + 1.
Proof.
  intros Hr Hb Hc. unfold slice2, slice.
  assert (Hlen : length (firstn (b + 1 - t) (skipn t arr)) = b - t + 1)
    by (rewrite length_firstn, length_skipn; lia).
  split; [rewrite length_map; exact Hlen |].
  destruct (firstn (b + 1 - t) (skipn t arr)) as [| row rows] eqn:Hrows;
    [simpl in Hlen; lia |].
  simpl. rewrite length_firstn, length_skipn.
  assert (Hin : In row arr).
  { assert (Hin' : In row (firstn (b + 1 - t) (skipn t arr)))
      by (rewrite Hrows; left; reflexivity).
    apply In_nth_error in Hin'. destruct Hin' as [k Hk].
    rewrite nth_error_firstn in Hk.
    destruct (k <? b + 1 - t); [| discriminate].
    rewrite nth_error_skipn in Hk. apply (nth_error_In _ _ Hk). }
  unfold rectangular in Hr. rewrite forallb_forall in Hr.
  specialize (Hr row Hin). apply Nat.eqb_eq in Hr. lia.
Qed.

(** Lines 66-76.  On a rectangular grid with a pixel of alpha > 0 the trim is
    tight: the first and last row and the first and last column of the
    result each hold a pixel of alpha > 0. *)
Theorem trim_tight :
  forall (img : image) (i j : nat) (p : pixel),
    rectangular img = true ->
    lookup2 img i j = Some p -> (0 < alpha_ch p)%Z ->
    let out := trim img in
    (exists c q, lookup2 out 0 c = Some q /\ (0 < alpha_ch q)%Z) /\
    (exists c q, lookup2 out (height out - 1) c = Some q /\ (0 < alpha_ch q)%Z) /\
    (exists r q, lookup2 out r 0 = Some q /\ (0 < alpha_ch q)%Z) /\
    (exists r q, lookup2 out r (width out - 1) = Some q /\ (0 < alpha_ch q)%Z).
Proof.
  intros img i j p Hrect Hp Ha. cbv zeta. unfold trim.
  destruct (where2 (fun p => (0 <? alpha_ch p)%Z) img) as [| [r c] rest] eqn:HP.
  { assert (Hin : In (i, j) (where2 (fun p => (0 <? alpha_ch p)%Z) img))
      by (apply where2_In; exists p; split; [exact Hp | apply Z.ltb_lt; exact Ha]).
    rewrite HP in Hin. destruct Hin. }
  pose proof (extremes_of r c rest) as E. rewrite <- HP in E.
  set (t := min_of r (map fst rest)) in *.
  set (b := max_of r (map fst rest)) in *.
  set (l := min_of c (map snd rest)) in *.
  set (rt := max_of c (map snd rest)) in *.
  assert (Hb : t <= b < length img /\ l <= rt < length (hd [] img)).
  { destruct E as [[c1 H1] [c2 H2] [r3 H3] [r4 H4] Hall].
    pose proof (Hall _ _ H1). pose proof (Hall _ _ H3).
    apply where2_In in H2, H4.
    destruct H2 as [x2 [H2 _]]. destruct H4 as [x4 [H4 _]].
    pose proof (lookup2_bounds img _ _ _ Hrect H2).
    pose proof (lookup2_bounds img _ _ _ Hrect H4). lia. }
  destruct (slice2_dims img t b l rt Hrect (proj1 Hb) (proj2 Hb)) as [Hh Hw].
  pose proof (extremes_slice2 (fun p => (0 <? alpha_ch p)%Z) img t b l rt E) as E'.
  replace (t + (b + 1 - t)) with (b + 1) in E' by lia.
  replace (l + (rt + 1 - l)) with (rt + 1) in E' by lia.
  unfold height, width. rewrite Hh, Hw.
  replace (b - t + 1 - 1) with (b - t) by lia.
  replace (rt - l + 1 - 1) with (rt - l) by lia.
  destruct E' as [[c1 H1] [c2 H2] [r3 H3] [r4 H4] _].
  apply where2_In in H1, H2, H3, H4.
  destruct H1 as [q1 [H1 G1]]. destruct H2 as [q2 [H2 G2]].
  destruct H3 as [q3 [H3 G3]]. destruct H4 as [q4 [H4 G4]].
  apply Z.ltb_lt in G1, G2, G3, G4.
  repeat split; eauto.
Qed.

End TrimKeeps.

Lemma trim_tight_witness :
  let img := [[mkPixel 0 0 0 0; mkPixel 0 0 0 0];
              [mkPixel 0 0 0 0; mkPixel 9 9 9 255]] in
  let out := trim img in
  (exists c q, lookup2 out 0 c = Some q /\ 0 < alpha_ch q) /\
  (exists c q, lookup2 out (height out - 1) c = Some q /\ 0 < alpha_ch q) /\
  (exists r q, lookup2 out r 0 = Some q /\ 0 < alpha_ch q) /\
  (exists r q, lookup2 out r (width out - 1) = Some q /\ 0 < alpha_ch q).
Proof.
  apply (trim_tight [[mkPixel 0 0 0 0; mkPixel 0 0 0 0];
                     [mkPixel 0 0 0 0; mkPixel 9 9 9 255]] 1 1 (mkPixel 9 9 9 255)).
  - reflexivity.
  - reflexivity.
  - reflexivity.
Defined.

(** ** The scripts end to end *)

Lemma lookup2_slice2_some {A : Type} (r0 r1 c0 c1 : nat) (arr : list (list A)) i j x :
  lookup2 (slice2 r0 r1 c0 c1 arr) i j = Some x ->
  lookup2 arr (r0 + i) (c0 + j) = Some x.
Proof.
  rewrite lookup2_slice2.
  destruct ((i <? r1 - r0)%nat && (j <? c1 - c0)%nat); [tauto | discriminate].
Qed.

(** One pass of the loop of the first script, lines 47-78: every pixel of the
    saved image is a pixel of the input image with only its alpha replaced;
    the alpha is one of 0, 127, 180, 255; and a pixel left visible is a true
    cell of the mask. *)
Lemma variant_pixels (img_array : image) (m : mask) (bb : bbox) (crop_y : nat)
  (i j : nat) (p' : pixel) :
  lookup2 (Advanced.variant falloff img_array m bb crop_y) i j = Some p' ->
  exists i' j' p,
    lookup2 img_array i' j' = Some p /\
    p' = with_alpha p (alpha_ch p') /\
    (alpha_ch p' = 0 \/ alpha_ch p' = 127 \/ alpha_ch p' = 180 \/ alpha_ch p' = 255) /\
    (0 < alpha_ch p' -> lookup2 m i' j' = Some true).
Proof.
  unfold Advanced.variant. intros H.
  set (cimg := slice2 (ymin bb) (crop_y + 1) (xmin bb) (xmax bb + 1) img_array) in *.
  set (cmask := slice2 (ymin bb) (crop_y + 1) (xmin bb) (xmax bb + 1) m) in *.
  destruct (trim_window (composite_soft falloff cimg cmask)) as [top [left [Hsub _]]].
  apply Hsub in H. unfold composite_soft, set_alpha in H.
  rewrite lookup2_zip_with2 in H.
  destruct (lookup2 cimg (top + i) (left + j)) as [p |] eqn:Hp; [| discriminate].
  destruct (lookup2 (soft_alpha falloff cmask) (top + i) (left + j)) as [a |] eqn:Hal;
    [| discriminate].
  injection H as <-. simpl.
  destruct (soft_alpha_levels cmask _ _ a Hal) as [Hlev Hpos].
  exists (ymin bb + (top + i))%nat, (xmin bb + (left + j))%nat, p.
  split; [apply (lookup2_slice2_some _ _ _ _ _ _ _ _ Hp) |].
  split; [reflexivity |]. split; [exact Hlev |].
  intros Ha. apply Hpos in Ha. apply (lookup2_slice2_some _ _ _ _ _ _ _ _ Ha).
Qed.

(** The first script, whole run.  Whatever it saves goes under one of its two
    file names, and every pixel of a saved image is a pixel of the input
    image with only its alpha replaced, by one of 0, 127, 180, 255; a pixel
    left visible is a true cell of the refined content mask. *)
Theorem advanced_outputs_from_input :
  forall (img : image) (r : run) (name : string) (out : image)
         (i j : nat) (p' : pixel),
    Advanced.main img = inr r ->
    In (name, out) (saved r) ->
    lookup2 out i j = Some p' ->
    (name = "logo_graphic_v2.png"%string \/ name = "logo_with_text_v2.png"%string) /\
    exists i' j' p,
      lookup2 img i' j' = Some p /\
      p' = with_alpha p (alpha_ch p') /\
      (alpha_ch p' = 0 \/ alpha_ch p' = 127 \/ alpha_ch p' = 180 \/ alpha_ch p' = 255) /\
      (0 < alpha_ch p' -> lookup2 (Advanced.content_mask img) i' j' = Some true).
Proof.
  intros img r name out i j p' Hmain Hin Hp.
  unfold Advanced.main in Hmain.
  destruct (bounding_box (Advanced.content_mask img)) as [e | bb]; [discriminate |].
  injection Hmain as <-. simpl in Hin.
  destruct Hin as [Hin | [Hin | []]]; injection Hin as <- <-.
  - split; [left; reflexivity |]. apply (variant_pixels _ _ _ _ _ _ _ Hp).
  - split; [right; reflexivity |]. apply (variant_pixels _ _ _ _ _ _ _ Hp).
Qed.

Lemma advanced_outputs_from_input_witness :
  ("logo_graphic_v2.png"%string = "logo_graphic_v2.png"%string \/
   "logo_graphic_v2.png"%string = "logo_with_text_v2.png"%string) /\
  exists i' j' p,
    lookup2 block_6x6 i' j' = Some p /\
    mkPixel 0 0 0 127 = with_alpha p (alpha_ch (mkPixel 0 0 0 127)) /\
    (alpha_ch (mkPixel 0 0 0 127) = 0 \/ alpha_ch (mkPixel 0 0 0 127) = 127 \/
     alpha_ch (mkPixel 0 0 0 127) = 180 \/ alpha_ch (mkPixel 0 0 0 127) = 255) /\
    (0 < alpha_ch (mkPixel 0 0 0 127) ->
     lookup2 (Advanced.content_mask block_6x6) i' j' = Some true).
Proof.
  destruct (Advanced.main block_6x6) as [e | r] eqn:Hmain;
    [vm_compute in Hmain; discriminate |].
  apply (advanced_outputs_from_input block_6x6 r "logo_graphic_v2.png"
           (Advanced.variant falloff block_6x6 (Advanced.content_mask block_6x6)
              (mkBbox 1 4 1 4) 2)
           0 0 (mkPixel 0 0 0 127) Hmain).
  - vm_compute in Hmain. injection Hmain as <-. vm_compute. left. reflexivity.
  - vm_compute. reflexivity.
Defined.

(** The second script, whole run.  Whatever it saves goes under its one file
    name, and every pixel of the saved image is a pixel of the input image
    with only its alpha replaced: 255 if the pixel is neither light nor
    grayish, else 0. *)
Theorem with_text_outputs_from_input :
  forall (img : image) (r : run) (name : string) (out : image)
         (i j : nat) (p' : pixel),
    WithText.main img = inr r ->
    In (name, out) (saved r) ->
    lookup2 out i j = Some p' ->
    name = "logo_with_text.png"%string /\
    exists i' j' p,
      lookup2 img i' j' = Some p /\
      p' = with_alpha p (255 * Z.b2z (negb (light_pixel p || grayish p))).
Proof.
  intros img r0 name out i j p' Hmain Hin Hp. unfold WithText.main in Hmain.
  destruct (where2 WithText.non_white img) as [| [r c] rest].
  { injection Hmain as <-. destruct Hin. }
  set (min_y := min_of r (map fst rest)) in *.
  set (min_x := min_of c (map snd rest)) in *.
  set (text_max_y := Z.to_nat (graphic_text_max_y (Z.of_nat (max_of r (map fst rest)))))
    in *.
  set (max_x1 := (max_of c (map snd rest) + 1)%nat) in *.
  destruct (text_max_y <=? min_y)%nat; [discriminate |].
  injection Hmain as <-. simpl in Hin.
  destruct Hin as [Hin | []]. injection Hin as <- <-.
  split; [reflexivity |].
  set (cropped := slice2 min_y text_max_y min_x max_x1 img) in *.
  destruct (trim_window (set_alpha cropped (matte_alpha cropped)))
    as [top [left [Hsub _]]].
  apply Hsub in Hp. unfold set_alpha, matte_alpha in Hp.
  rewrite lookup2_zip_with2, lookup2_map in Hp.
  destruct (lookup2 cropped (top + i) (left + j)) as [p |] eqn:Hc; [| discriminate].
  simpl in Hp. injection Hp as <-.
  exists (min_y + (top + i))%nat, (min_x + (left + j))%nat, p.
  split; [apply (lookup2_slice2_some _ _ _ _ _ _ _ _ Hc) |].
  destruct (grayish p), (light_pixel p); reflexivity.
Qed.

Lemma with_text_outputs_from_input_witness :
  "logo_with_text.png"%string = "logo_with_text.png"%string /\
  exists i' j' p,
    lookup2 block_6x6 i' j' = Some p /\
    mkPixel 0 0 0 255
    = with_alpha p (255 * Z.b2z (negb (light_pixel p || grayish p))).
Proof.
  destruct (WithText.main block_6x6) as [e | r] eqn:Hmain;
    [vm_compute in Hmain; discriminate |].
  apply (with_text_outputs_from_input block_6x6 r "logo_with_text.png"
           (snd (hd (EmptyString, []) (saved r))) 0 0 (mkPixel 0 0 0 255) Hmain).
  - vm_compute in Hmain. injection Hmain as <-. vm_compute. left. reflexivity.
  - vm_compute in Hmain. injection Hmain as <-. vm_compute. reflexivity.
Defined.

Lemma where2_empty_iff {A : Type} (cond : A -> bool) (arr : list (list A)) :
  where2 cond arr = [] <->
  forall i j x, lookup2 arr i j = Some x -> cond x = false.
Proof.
  split.
  - intros Hnil i j x Hx. destruct (cond x) eqn:Hc; [| reflexivity].
    assert (Hin : In (i, j) (where2 cond arr))
      by (apply where2_In; exists x; split; assumption).
    rewrite Hnil in Hin. destruct Hin.
  - intros H. destruct (where2 cond arr) as [| [i j] rest] eqn:Hw; [reflexivity |].
    assert (Hin : In (i, j) (where2 cond arr)) by (rewrite Hw; left; reflexivity).
    apply where2_In in Hin. destruct Hin as [x [Hx Hc]].
    rewrite (H i j x Hx) in Hc. discriminate.
Qed.

(** The three ways the second script ends, lines 15-17, 26-29 and 65-73.
    With no pixel of mean brightness below 250 it prints its diagnostic and
    saves nothing.  With such pixels, [min_y] and [max_y] being the first and
    the last row that holds one: if the cut row [floor(3 * max_y / 4)] is not
    below [min_y] the run ends with [ValueError], nothing saved although
    content exists; otherwise it saves exactly one image. *)
Theorem with_text_three_ways :
  forall img : image,
    ((forall i j p, lookup2 img i j = Some p -> WithText.non_white p = false) ->
     WithText.main img = inr (mkRun [] ["No content found in image"%string])) /\
    (forall min_y max_y : nat,
        (exists j p, lookup2 img min_y j = Some p /\ WithText.non_white p = true) ->
        (exists j p, lookup2 img max_y j = Some p /\ WithText.non_white p = true) ->
        (forall i j p, lookup2 img i j = Some p -> WithText.non_white p = true ->
                       (min_y <= i <= max_y)%nat) ->
        (3 * Z.of_nat max_y / 4 <= Z.of_nat min_y ->
         WithText.main img = inl WithText.ValueError) /\
        (Z.of_nat min_y < 3 * Z.of_nat max_y / 4 ->
         exists r : run,
           WithText.main img = inr r /\
           exists out, saved r = [("logo_with_text.png"%string, out)])).
Proof.
  intros img. split.
  - intros H. apply where2_empty_iff in H.
    unfold WithText.main. rewrite H. reflexivity.
  - intros min_y max_y [j0 [p0 [H0 C0]]] [j1 [p1 [H1 C1]]] Hall.
    unfold WithText.main.
    destruct (where2 WithText.non_white img) as [| [r c] rest] eqn:HP.
    { assert (Hin : In (min_y, j0) (where2 WithText.non_white img))
        by (apply where2_In; exists p0; split; assumption).
      rewrite HP in Hin. destruct Hin. }
    pose proof (extremes_of r c rest) as E. rewrite <- HP in E.
    set (t := min_of r (map fst rest)) in *.
    set (b := max_of r (map fst rest)) in *.
    assert (Ht : t = min_y /\ b = max_y).
    { destruct E as [[c1 G1] [c2 G2] _ _ Hext].
      assert (I0 : In (min_y, j0) (where2 WithText.non_white img))
        by (apply where2_In; exists p0; split; assumption).
      assert (I1 : In (max_y, j1) (where2 WithText.non_white img))
        by (apply where2_In; exists p1; split; assumption).
      pose proof (Hext _ _ I0). pose proof (Hext _ _ I1).
      apply where2_In in G1, G2.
      destruct G1 as [q1 [G1 K1]]. destruct G2 as [q2 [G2 K2]].
      pose proof (Hall _ _ _ G1 K1). pose proof (Hall _ _ _ G2 K2). lia. }
    destruct Ht as [-> ->].
    rewrite graphic_text_max_y_eq by lia.
    split.
    + intros Hle.
      replace (Z.to_nat (3 * Z.of_nat max_y / 4) <=? min_y)%nat with true
        by (symmetry; apply Nat.leb_le; lia).
      reflexivity.
    + intros Hlt.
      replace (Z.to_nat (3 * Z.of_nat max_y / 4) <=? min_y)%nat with false
        by (symmetry; apply Nat.leb_gt; lia).
      eexists. split; [reflexivity |]. eexists. reflexivity.
Qed.

Lemma shape_dims {A B : Type} (a1 : list (list A)) (a2 : list (list B)) :
  shape a1 = shape a2 ->
  length a1 = length a2 /\ length (hd [] a1) = length (hd [] a2).
Proof.
  intros Hs. unfold shape in Hs. split.
  - rewrite <- (length_map (@length A) a1), <- (length_map (@length B) a2), Hs.
    reflexivity.
  - destruct a1 as [| r1 a1], a2 as [| r2 a2]; try discriminate; [reflexivity |].
    simpl in *. congruence.
Qed.

Lemma rectangular_shape {A B : Type} (a1 : list (list A)) (a2 : list (list B)) :
  shape a1 = shape a2 -> rectangular a1 = rectangular a2.
Proof.
  intros Hs. unfold rectangular.
  assert (Hhd : length (hd [] a1) = length (hd [] a2)).
  { destruct a1 as [| r1 a1], a2 as [| r2 a2]; try discriminate; [reflexivity |].
    simpl in *. congruence. }
  rewrite Hhd. clear Hhd. unfold shape in Hs.
  generalize (length (hd [] a2)). intros w. revert a2 Hs.
  induction a1 as [| r1 a1 IH]; intros a2 Hs; destruct a2 as [| r2 a2];
    try discriminate; [reflexivity |].
  simpl in *. injection Hs as Hr Hs. rewrite Hr, (IH a2 Hs). reflexivity.
Qed.

Lemma no_true_false (m : mask) :
  no_true m = false -> exists i j, lookup2 m i j = Some true.
Proof.
  unfold no_true. induction m as [| row m IH]; simpl; [discriminate |].
  destruct (forallb negb row) eqn:Hrow; simpl.
  - intros H. destruct (IH H) as [i [j Hij]]. exists (S i), j. exact Hij.
  - intros _. clear IH. exists 0%nat.
    induction row as [| b row IHr]; simpl in Hrow; [discriminate |].
    destruct b; simpl in Hrow.
    + exists 0%nat. reflexivity.
    + destruct (IHr Hrow) as [j Hj]. exists (S j). exact Hj.
Qed.

(** The first script on a rectangular image: it ends with the exception of
    line 31 exactly when the refined content mask has no true cell, and
    otherwise saves its two images, in this order. *)
Theorem advanced_runs_iff_content :
  forall img : image,
    rectangular img = true ->
    (no_true (Advanced.content_mask img) = true ->
     Advanced.main img = inl IndexError) /\
    (no_true (Advanced.content_mask img) = false ->
     exists r : run,
       Advanced.main img = inr r /\
       map fst (saved r)
       = ["logo_graphic_v2.png"%string; "logo_with_text_v2.png"%string]).
Proof.
  intros img Hrect. split.
  - intros H.
    destruct (empty_mask_no_output (Advanced.content_mask img) img) as [_ [Hadv _]].
    apply Hadv. exact H.
  - intros H. destruct (no_true_false _ H) as [i [j Hij]].
    assert (Hr : rectangular (Advanced.content_mask img) = true)
      by (rewrite (rectangular_shape _ img (content_mask_shape img)); exact Hrect).
    destruct (bounding_box_tight _ i j Hr Hij) as [bb [Hbb _]].
    unfold Advanced.main. rewrite Hbb. eexists. split; reflexivity.
Qed.

Lemma advanced_runs_iff_content_witness :
  (no_true (Advanced.content_mask all_white_3x3) = true ->
   Advanced.main all_white_3x3 = inl IndexError) /\
  (no_true (Advanced.content_mask all_white_3x3) = false ->
   exists r : run,
     Advanced.main all_white_3x3 = inr r /\
     map fst (saved r)
     = ["logo_graphic_v2.png"%string; "logo_with_text_v2.png"%string]).
Proof.
  apply (advanced_runs_iff_content all_white_3x3). reflexivity.
Defined.

Lemma bounding_box_some_true (m : mask) (bb : bbox) :
  bounding_box m = inr bb -> exists i j, lookup2 m i j = Some true.
Proof.
  unfold bounding_box. intros H.
  destruct (where1 (any_axis1 m)) as [| y rest] eqn:Hw; [discriminate |].
  assert (Hin : In y (where1 (any_axis1 m))) by (rewrite Hw; left; reflexivity).
  apply where1_In in Hin. apply any_axis1_true in Hin.
  destruct Hin as [j Hj]. exists y, j. exact Hj.
Qed.

Lemma interior_bounds (m : mask) (i j : nat) :
  rectangular m = true ->
  erode_at (inb m) (Z.of_nat i) (Z.of_nat j) = true ->
  (1 <= i /\ i + 2 <= length m /\ 1 <= j /\ j + 2 <= length (hd [] m))%nat.
Proof.
  intros Hrect H. rewrite erode_at_spec in H.
  pose proof (H (-1) (-1) ltac:(lia) ltac:(lia)) as Hlo.
  pose proof (H 1 1 ltac:(lia) ltac:(lia)) as Hhi.
  unfold inb in Hlo, Hhi.
  repeat (apply andb_true_iff in Hlo; destruct Hlo as [Hlo ?]).
  repeat (apply andb_true_iff in Hhi; destruct Hhi as [Hhi ?]).
  repeat match goal with
         | Hx : (_ <=? _) = true |- _ => apply Z.leb_le in Hx
         | Hx : (_ <? _)%nat = true |- _ => apply Nat.ltb_lt in Hx
         end.
  assert (Hrow : length (nth (Z.to_nat (Z.of_nat i + 1)) m []) = length (hd [] m)).
  { unfold rectangular in Hrect. rewrite forallb_forall in Hrect.
    apply Nat.eqb_eq. apply Hrect. apply nth_In. lia. }
  lia.
Qed.

(** Lines 24-32 together.  Because the closing erodes against a false
    border, the bounding box of the refined mask never reaches the first or
    last row or column of a rectangular image: content on the image border
    is always cut away. *)
Theorem content_box_off_border :
  forall (img : image) (bb : bbox),
    rectangular img = true ->
    bounding_box (Advanced.content_mask img) = inr bb ->
    (1 <= ymin bb /\ ymax bb + 2 <= height img /\
     1 <= xmin bb /\ xmax bb + 2 <= width img)%nat.
Proof.
  intros img bb Hrect Hbb.
  set (m := Advanced.content_mask img) in *.
  assert (Hs : shape m = shape img) by apply content_mask_shape.
  assert (Hr : rectangular m = true)
    by (rewrite (rectangular_shape m img Hs); exact Hrect).
  destruct (bounding_box_some_true m bb Hbb) as [i [j Hij]].
  destruct (bounding_box_tight m i j Hr Hij)
    as [bb' [Hbb' [_ [_ [[c0 H0] [[c1 H1] [[r0 G0] [r1 G1]]]]]]]].
  rewrite Hbb in Hbb'. injection Hbb' as <-.
  assert (Hint : forall a b, lookup2 m a b = Some true ->
                             erode_at (inb m) (Z.of_nat a) (Z.of_nat b) = true).
  { intros a b Hab.
    assert (Hg : getb m (Z.of_nat a) (Z.of_nat b) = true)
      by (rewrite getb_lookup2, Hab; reflexivity).
    unfold m in Hg. unfold Advanced.content_mask in Hg.
    apply refine_inside in Hg.
    rewrite (erode_at_ext (inb m) (inb (classify white threshold img))).
    - exact Hg.
    - intros x y. apply inb_shape. rewrite Hs. unfold classify.
      symmetry. apply shape_map. }
  destruct (shape_dims m img Hs) as [Hh Hw].
  unfold height, width. rewrite <- Hh, <- Hw.
  pose proof (interior_bounds m _ _ Hr (Hint _ _ H0)).
  pose proof (interior_bounds m _ _ Hr (Hint _ _ H1)).
  pose proof (interior_bounds m _ _ Hr (Hint _ _ G0)).
  pose proof (interior_bounds m _ _ Hr (Hint _ _ G1)).
  lia.
Qed.

Lemma content_box_off_border_witness :
  (1 <= ymin (mkBbox 1 4 1 4) /\ ymax (mkBbox 1 4 1 4) + 2 <= height block_6x6 /\
   1 <= xmin (mkBbox 1 4 1 4) /\ xmax (mkBbox 1 4 1 4) + 2 <= width block_6x6)%nat.
Proof.
  apply (content_box_off_border block_6x6 (mkBbox 1 4 1 4)).
  - reflexivity.
  - vm_compute. reflexivity.
Defined.

(** ** The compositor inside the loop *)

(** Lines 48-61 for any crop rows and columns, any falloff width: the crop of
    the image and the crop of the refined mask have one shape, so writing the
    alpha keeps every pixel of the crop and all its colour planes. *)
Theorem loop_compositor_frame :
  forall (D : Z) (img_array : image) (r0 r1 c0 c1 : nat),
    let cropped_img := slice2 r0 r1 c0 c1 img_array in
    let cropped_mask := slice2 r0 r1 c0 c1 (Advanced.content_mask img_array) in
    shape (composite_soft D cropped_img cropped_mask) = shape cropped_img /\
    colors (composite_soft D cropped_img cropped_mask) = colors cropped_img.
Proof.
  intros D img_array r0 r1 c0 c1. cbv zeta.
  pose proof (variant_crops_same_shape img_array r0 r1 c0 c1) as Hs. cbv zeta in Hs.
  set (cimg := slice2 r0 r1 c0 c1 img_array) in *.
  set (cmask := slice2 r0 r1 c0 c1 (Advanced.content_mask img_array)) in *.
  assert (Hal : shape cimg = shape (soft_alpha D cmask))
    by (rewrite shape_soft_alpha; exact Hs).
  unfold composite_soft, set_alpha. split.
  - apply shape_zip_with2. exact Hal.
  - unfold colors. apply zip_with2_map_l; [reflexivity | exact Hal].
Qed.

(** Lines 56-58 with the falloff width 2: a content cell with a false cell
    directly above, below, left or right of it (at distance 1) gets alpha
    127, half transparent. *)
Theorem soft_alpha_edge_ring :
  forall (m : mask) (i j fi fj : nat),
    lookup2 m i j = Some true ->
    lookup2 m fi fj = Some false ->
    sq_dist i j (fi, fj) = 1 ->
    lookup2 (soft_alpha falloff m) i j = Some 127.
Proof.
  intros m i j fi fj Ht Hf Hd.
  rewrite lookup2_soft_alpha, Ht. simpl. f_equal.
  assert (Hin : In (fi, fj) (where2 negb m))
    by (apply where2_In; exists false; split; [exact Hf | reflexivity]).
  assert (Hne : where2 negb m <> [])
    by (intros Hnil; rewrite Hnil in Hin; destruct Hin).
  destruct (edt_sq_at_least (where2 negb m) i j Hne) as [_ Hmin].
  specialize (Hmin _ Hin). rewrite Hd in Hmin.
  destruct (edt_sq_at_true_cell m i j Ht) as [x [y [Hxy Hnz]]].
  assert (He : edt_sq_at (where2 negb m) i j = 1) by nia.
  rewrite He. reflexivity.
Qed.

Lemma soft_alpha_edge_ring_witness :
  lookup2 (soft_alpha falloff [[true; true; false]]) 0 1 = Some 127.
Proof.
  apply (soft_alpha_edge_ring [[true; true; false]] 0 1 0 2).
  - reflexivity.
  - reflexivity.
  - reflexivity.
Defined.

(** ** The three ways the second script ends, at an input *)

Lemma with_text_three_ways_witness :
  WithText.main [[white_px]; [white_px]; [white_px]; [black_px]]
  = inl WithText.ValueError.
Proof.
  destruct (with_text_three_ways [[white_px]; [white_px]; [white_px]; [black_px]])
    as [_ H].
  destruct (H 3%nat 3%nat) as [Hraise _].
  - exists 0%nat, black_px. split; reflexivity.
  - exists 0%nat, black_px. split; reflexivity.
  - intros i j p Hp Hc.
    assert (Hin : In (i, j)
                     (where2 WithText.non_white
                        [[white_px]; [white_px]; [white_px]; [black_px]]))
      by (apply where2_In; exists p; split; assumption).
    vm_compute in Hin. destruct Hin as [Hin | []].
    injection Hin as <- <-. lia.
  - apply Hraise. vm_compute. discriminate.
Defined.

(** ** Output alpha of the two scripts *)




